(** * DnaChisel: the specification evaluation and localization core

    A shallow embedding of [EnforceGCContent] and [AvoidNonuniqueSegments]
    (package [dnachisel.builtin_specifications]) together with the
    collaborators they call: [Location], [SpecEvaluation],
    [VoidSpecification], [reverse_complement] and [gc_content].

    Python integers are [Z] (coordinates) or [nat] (lengths handed to
    [range] and to slices), Python floats are exact rationals [Q], the
    [defaultdict] of k-mer occurrences is a [gmap], and a Python call that
    may raise lives in the [result] monad. *)

From Stdlib Require Import QArith Qminmax Qabs Lqa.
From stdpp Require Import gmap list sorting strings pretty.

Local Open Scope Z_scope.

(** ** Exceptions *)

Inductive exception := ValueError | TypeError | AttributeError.

Inductive result (X : Type) :=
  | Ok (x : X)
  | Raise (e : exception).
Arguments Ok {X} x.
Arguments Raise {X} e.

Global Instance result_ret : MRet result := fun _ x => Ok x.
Global Instance result_bind : MBind result := fun _ _ f m =>
  match m with
  | Ok x => f x
  | Raise e => Raise e
  end.

(** Attribute access on an object that may be [None]. *)
Definition attr_of {X} (o : option X) : result X :=
  match o with
  | Some x => Ok x
  | None => Raise AttributeError
  end.

(** A list comprehension whose element expression may raise. *)
Fixpoint comprehension {X Y} (f : X -> result Y) (l : list X) : result (list Y) :=
  match l with
  | [] => Ok []
  | x :: l' => y ← f x; ys ← comprehension f l'; Ok (y :: ys)
  end.

(** ** Sequences *)

Inductive nucleotide := A | C | G | T.

Global Instance nucleotide_eq_dec : EqDecision nucleotide.
Proof. solve_decision. Defined.

Definition nucleotide_code (n : nucleotide) : nat :=
  match n with A => 0 | C => 1 | G => 2 | T => 3 end%nat.
Definition nucleotide_of_code (c : nat) : nucleotide :=
  match c with 0 => A | 1 => C | 2 => G | _ => T end%nat.

Global Instance nucleotide_countable : Countable nucleotide.
Proof.
  apply (inj_countable' nucleotide_code nucleotide_of_code).
  by intros [].
Defined.

Abbreviation dna := (list nucleotide).

(** Python's [s[i:j]] for [0 <= i] and [0 <= j]: out-of-range bounds are
    clamped, an inverted range is empty. *)
Definition slice {X} (s : list X) (i j : nat) : list X :=
  take (j - i) (drop i s).

(** Modelled from the spec: [biotools.complement] and
    [biotools.reverse_complement] are imported by the specifications but
    their module is not part of the sources; the spec calls them the
    "reverse-complement" service over the fixed DNA alphabet. *)
Definition complement (n : nucleotide) : nucleotide :=
  match n with A => T | T => A | C => G | G => C end.
Definition reverse_complement (sequence : dna) : dna :=
  reverse (complement <$> sequence).

(** ** Location *)

Inductive strand_t := Plus | Minus.

Global Instance strand_eq_dec : EqDecision strand_t.
Proof. solve_decision. Defined.

Record Location := mkLocation {
  start : Z;
  end_ : Z;
  strand : option strand_t
}.

Global Instance Location_eq_dec : EqDecision Location.
Proof. solve_decision. Defined.

(** The data-model invariant of a constructed location: [start >= 0] and
    [end >= start]. *)
Definition valid_location (l : Location) : Prop := 0 <= start l <= end_ l.

(** Modelled from the spec: class [Location] is imported from
    [dnachisel.Location], which is not part of the sources.  "Construct
    from [(start, end[, strand])]; fails with ValueError-equivalent if
    [end < start]." *)
Definition Location_new (start end_ : Z) (strand : option strand_t) : result Location :=
  if decide (end_ < start) then Raise ValueError
  else Ok (mkLocation start end_ strand).

(** Modelled from the spec: [Location.extract_sequence] returns
    [sequence[start:end]], reverse-complemented when [strand == -1]. *)
Definition extract_sequence (self : Location) (sequence : dna) : dna :=
  let sub := slice sequence (Z.to_nat (start self)) (Z.to_nat (end_ self)) in
  match strand self with
  | Some Minus => reverse_complement sub
  | _ => sub
  end.

(** Modelled from the spec: [Location.overlap_region] is
    "[[max(start1,start2), min(end1,end2))] if positive-length, else a
    sentinel no overlap (null) value".  The result keeps the receiver's
    strand. *)
Definition overlap_region (self other : Location) : option Location :=
  let s := Z.max (start self) (start other) in
  let e := Z.min (end_ self) (end_ other) in
  if decide (s < e) then Some (mkLocation s e (strand self)) else None.

(** Modelled from the spec: [Location.extended] "returns
    [[start-margin, end+margin)], clipped to non-negative start only". *)
Definition extended (self : Location) (margin : Z) : result Location :=
  Location_new (Z.max 0 (start self - margin)) (end_ self + margin) (strand self).

(** Modelled from the spec: locations are ordered "lexicographic by
    [(start, end)]"; this is the order [sorted] uses. *)
Definition Location_le (l1 l2 : Location) : Prop :=
  start l1 < start l2 \/ (start l1 = start l2 /\ end_ l1 <= end_ l2).

Global Instance Location_le_dec : RelDecision Location_le.
Proof. intros l1 l2. unfold Location_le. apply _. Defined.

(** A position of the sequence lies in the half-open interval. *)
Definition covers (l : Location) (p : Z) : Prop := start l <= p < end_ l.

(** ** Problem, SpecEvaluation, VoidSpecification *)

Record DnaOptimizationProblem := mkProblem { sequence : dna }.

(** The text of a [SpecEvaluation] message; [Location.__str__], which
    renders the locations inside it, is outside the sources, so the message
    keeps its arguments instead of the formatted string. *)
Inductive message_t :=
  | NoMessage
  | Passed_no_nonunique_kmer (min_length : nat)
  | Failed_first_occurences (locations : list Location)
  | Passed_bang
  | Out_of_bound_on_segments (locations : list Location).

(** Modelled from the spec: [SpecEvaluation] is "constructed from
    [(specification, problem, score, locations=[], message=)]". *)
Record SpecEvaluation (Spec Num : Type) := mkSpecEvaluation {
  specification : Spec;
  problem : DnaOptimizationProblem;
  score : Num;
  locations : list Location;
  message : message_t
}.
Arguments mkSpecEvaluation {Spec Num}.
Arguments specification {Spec Num}.
Arguments problem {Spec Num}.
Arguments score {Spec Num}.
Arguments locations {Spec Num}.
Arguments message {Spec Num}.

(** What [localized] hands back for a specification class [X]: an instance
    of the class, or a [VoidSpecification] that remembers its parent. *)
Inductive Specification (X : Type) :=
  | Spec (self : X)
  | VoidSpecification (parent_specification : X).
Arguments Spec {X}.
Arguments VoidSpecification {X}.

(** ** AvoidNonuniqueSegments *)

Module AvoidNonuniqueSegments.

Record t := mk {
  min_length : nat;
  location : option Location;
  include_reverse_complement : bool
}.

Definition init (min_length : nat) (location : option Location)
    (include_reverse_complement : bool) : result t :=
  Ok (mk min_length location include_reverse_complement).

(** [initialize_on_problem] assigns [self.location] in place and has no
    [return]: the pair is the object after the call and the value the call
    evaluates to ([None]). *)
Definition initialize_on_problem (self : t) (problem : DnaOptimizationProblem)
    : result (t * option (Specification t)) :=
  match location self with
  | None =>
      loc ← Location_new 0 (Z.of_nat (length (sequence problem))) None;
      Ok (mk (min_length self) (Some loc) (include_reverse_complement self), None)
  | Some _ => Ok (self, None)
  end.

(** [kmers_locations[kmer].append(position)] on a [defaultdict] of lists. *)
Definition append_position (kmers_locations : gmap dna (list (Z * Z)))
    (kmer : dna) (position : Z * Z) : gmap dna (list (Z * Z)) :=
  <[kmer := (kmers_locations !!! kmer) ++ [position]]> kmers_locations.

(** Body of the first loop. *)
Definition record_forward (sequence : dna) (min_length : nat)
    (kmers_locations : gmap dna (list (Z * Z))) (i : nat) :=
  let start := i in
  let end_ := (i + min_length)%nat in
  append_position kmers_locations (slice sequence start end_)
    (Z.of_nat start, Z.of_nat end_).

(** Body of the second loop, over the reverse complement. *)
Definition record_reverse (sequence rev_complement : dna) (min_length : nat)
    (kmers_locations : gmap dna (list (Z * Z))) (i : nat) :=
  let start := i in
  let end_ := (i + min_length)%nat in
  append_position kmers_locations (slice rev_complement start end_)
    (Z.of_nat (length sequence) - Z.of_nat end_,
     Z.of_nat (length sequence) - Z.of_nat start).

(** The dictionary after both loops; [range(len(sequence) - min_length)] is
    empty when the difference is negative. *)
Definition kmers_locations (self : t) (sequence : dna) : gmap dna (list (Z * Z)) :=
  let rev_complement := reverse_complement sequence in
  let starts := seq 0 (length sequence - min_length self) in
  let forward := foldl (record_forward sequence (min_length self)) ∅ starts in
  if include_reverse_complement self
  then foldl (record_reverse sequence rev_complement (min_length self)) forward starts
  else forward.

(** [min(positions_list, key=lambda p: p[0])]: the first element among
    those of least start; [ValueError] on an empty list. *)
Fixpoint min_from (best : Z * Z) (positions_list : list (Z * Z)) : Z * Z :=
  match positions_list with
  | [] => best
  | p :: rest => min_from (if decide (p.1 < best.1) then p else best) rest
  end.
Definition min_by_start (positions_list : list (Z * Z)) : result (Z * Z) :=
  match positions_list with
  | [] => Raise ValueError
  | p :: rest => Ok (min_from p rest)
  end.

Definition evaluate (self : t) (problem : DnaOptimizationProblem)
    : result (SpecEvaluation t Z) :=
  loc ← attr_of (location self);
  let sequence := extract_sequence loc (sequence problem) in
  let values := (map_to_list (kmers_locations self sequence)).*2 in
  unsorted ← comprehension
    (fun positions_list =>
       p ← min_by_start positions_list; Location_new p.1 p.2 None)
    (filter (fun positions_list => (1 < length positions_list)%nat) values);
  let locations := merge_sort Location_le unsorted in
  if decide (locations = []) then
    Ok (mkSpecEvaluation self problem 0 []
          (Passed_no_nonunique_kmer (min_length self)))
  else
    Ok (mkSpecEvaluation self problem (- Z.of_nat (length locations)) locations
          (Failed_first_occurences locations)).

Definition localized (self : t) (location_ : Location) : result (Specification t) :=
  own ← attr_of (location self);
  match overlap_region own location_ with
  | None => Ok (VoidSpecification self)
  | Some _ => Ok (Spec self)
  end.

(** ["AvoidNonUniqueSegments(%d)" % (self.min_length)] *)
Definition __repr__ (self : t) : string :=
  "AvoidNonUniqueSegments(" +:+ pretty (min_length self) +:+ ")".

Definition __str__ (self : t) : string :=
  "AvoidNonUniqueSegments(" +:+ pretty (min_length self) +:+ ")".

End AvoidNonuniqueSegments.

(** ** GC content *)

Definition is_gc (n : nucleotide) : bool :=
  match n with
  | G | C => true
  | A | T => false
  end.

Definition gc_count (sequence : dna) : nat := length (filter is_gc sequence).

(** Modelled from the spec: [biotools.gc_content] is imported by
    [EnforceGCContent] but its module is not part of the sources; the spec
    gives [gc_content(sequence, window)] as a "sequence of fractions (or
    scalar if window is None)", one fraction per window start.  The
    fraction of each full window of [window_size >= 1] nucleotides is
    listed in order of its start; the scalar is a one-element list, which
    is how [sum] and [nonzero] treat a numpy scalar.  Fractions are exact
    rationals.  Where the denominator is zero (an empty region with no
    window, a window of 0) the spec gives no value and floating point gives
    no number; the fraction reads 0 there, a placeholder, and
    [fractions_defined] below names the inputs on which every fraction is
    a number. *)
Definition gc_content (sequence : dna) (window_size : option nat) : list Q :=
  match window_size with
  | None => [Z.of_nat (gc_count sequence) # Pos.of_nat (length sequence)]
  | Some w =>
      (fun i => Z.of_nat (gc_count (slice sequence i (i + w))) # Pos.of_nat w)
        <$> seq 0 (length sequence + 1 - w)
  end.

(** [breaches.sum()] *)
Definition Qsum (l : list Q) : Q := foldr Qplus 0%Q l.

(** [mask.nonzero()[0]]: the indices at which [mask] holds, ascending. *)
Fixpoint nonzero_from (i : Z) (mask : list bool) : list Z :=
  match mask with
  | [] => []
  | b :: mask' => (if b then [i] else []) ++ nonzero_from (i + 1) mask'
  end.
Definition nonzero (mask : list bool) : list Z := nonzero_from 0 mask.

(** [x > 0] on a float *)
Definition Qpositive (x : Q) : bool := negb (Qle_bool x 0).

(** ** EnforceGCContent *)

Inductive role_t := constraint | objective.

Module EnforceGCContent.

Record t := mk {
  target : option Q;
  mini : Q;
  maxi : Q;
  window : option nat;
  location : option Location;
  boost : Q
}.

Definition best_possible_score : Q := 0.

(** [__init__(mini=0, maxi=1.0, target=None, window=None, location=None,
    boost=1.0)] *)
Definition init (mini maxi : Q) (target : option Q) (window : option nat)
    (location : option Location) (boost : Q) : result t :=
  let '(mini, maxi) :=
    match target with
    | Some tg => (tg, tg)
    | None => (mini, maxi)
    end in
  Ok (mk target mini maxi window location boost).

(** Modelled from the spec: [Specification.copy_with_changes] (the base
    class is not part of the sources) "returns a new instance with
    specified attributes replaced"; it is only called with [location]. *)
Definition copy_with_changes (self : t) (location : option Location) : t :=
  mk (target self) (mini self) (maxi self) (window self) location (boost self).

Definition initialize_on_problem (self : t) (problem : DnaOptimizationProblem)
    (role : option role_t) : result t :=
  match location self with
  | None =>
      location ← Location_new 0 (Z.of_nat (length (sequence problem))) None;
      Ok (copy_with_changes self (Some location))
  | Some _ => Ok self
  end.

(** [np.maximum(0, mini - gc) + np.maximum(0, gc - maxi)], elementwise. *)
Definition breach (self : t) (gc : Q) : Q :=
  (Qmax 0 (mini self - gc) + Qmax 0 (gc - maxi self))%Q.

(** One turn of the loop over [breaches_starts[1:]]; the state is
    [(breaches_locations, current_start, last_end)]. *)
Definition merge_step (wstart window : Z) (st : list (Z * Z) * Z * Z) (i : Z)
    : list (Z * Z) * Z * Z :=
  let '(breaches_locations, current_start, last_end) := st in
  if decide (i > last_end + window) then
    (breaches_locations ++ [(wstart + current_start, wstart + last_end)],
     i, i + window)
  else
    (breaches_locations, current_start, i + window).

(** The [if / elif / else] that turns the breaching window starts into
    [[start, end]] pairs. *)
Definition breaches_locations (window : option nat) (wstart wend : Z)
    (breaches_starts : list Z) : result (list (Z * Z)) :=
  match breaches_starts with
  | [] => Ok []
  | [start] =>
      match window with
      | Some w => Ok [(start, start + Z.of_nat w)]
      | None => Ok [(wstart, wend)]
      end
  | current_start :: rest =>
      match window with
      | None => Raise TypeError
      | Some w =>
          let '(locs, current_start, last_end) :=
            foldl (merge_step wstart (Z.of_nat w))
                  ([], current_start, current_start + Z.of_nat w) rest in
          Ok (locs ++ [(wstart + current_start, wstart + last_end)])
      end
  end.

Definition evaluate (self : t) (problem : DnaOptimizationProblem)
    : result (SpecEvaluation t Q) :=
  location ← match location self with
             | Some l => Ok l
             | None => Location_new 0 (Z.of_nat (length (sequence problem))) None
             end;
  let wstart := start location in
  let wend := end_ location in
  let sequence := extract_sequence location (sequence problem) in
  let gc := gc_content sequence (window self) in
  let breaches := breach self <$> gc in
  let score := (- Qsum breaches)%Q in
  let breaches_starts := nonzero (Qpositive <$> breaches) in
  pairs ← breaches_locations (window self) wstart wend breaches_starts;
  if decide (pairs = []) then
    Ok (mkSpecEvaluation self problem score [] Passed_bang)
  else
    locs ← comprehension (fun loc => Location_new loc.1 loc.2 None) pairs;
    Ok (mkSpecEvaluation self problem score locs (Out_of_bound_on_segments locs)).

Definition localized (self : t) (location_ : Location) : result (Specification t) :=
  match location self with
  | Some own =>
      match window self with
      | None => Ok (Spec self)
      | Some _ =>
          match overlap_region own location_ with
          | None => Ok (VoidSpecification self)
          | Some _ =>
              let extension :=
                match window self with
                | None => 0
                | Some w => Z.of_nat w - 1
                end in
              extended_location ← extended location_ extension;
              let new_location := overlap_region own extended_location in
              Ok (Spec (copy_with_changes self new_location))
          end
      end
  | None =>
      match window self with
      | Some w =>
          new_location ← extended location_ (Z.of_nat w + 1);
          Ok (Spec (copy_with_changes self (Some new_location)))
      | None => Ok (Spec (copy_with_changes self None))
      end
  end.

End EnforceGCContent.

(** ** Sequences of the scenarios *)

Definition ATGCATGC : dna := [A; T; G; C; A; T; G; C].
Definition ATGCGCAT : dna := [A; T; G; C] ++ [G; C; A; T].

(** Twenty-four nucleotides whose 5-nucleotide windows hold four G/C
    exactly at the starts 10 and 12. *)
Definition two_breaches : dna :=
  replicate 10 A ++ [G; A; G; G; G; A; G] ++ replicate 7 A.

Definition flanked_gc : dna :=
  [A; A; A; A; T; T; T; T] ++ [G; C; G; C; G; C; G; C] ++ [A; A; A; A; T; T; T; T].


(** ** Reading the results *)

(** A k-mer group is non-unique when its list of occurrences has more than
    one position. *)
Definition non_unique (positions_list : list (Z * Z)) : Prop :=
  (1 < length positions_list)%nat.

(** [l] is the location of an occurrence of least start among
    [positions_list]. *)
Definition is_first_occurrence (positions_list : list (Z * Z)) (l : Location) : Prop :=
  exists p, p ∈ positions_list /\
            (forall q, q ∈ positions_list -> p.1 <= q.1) /\
            l = mkLocation p.1 p.2 None.

(** Follows the spec's words ("every k-mer substring of length
    [min_length]"): the starts, among 0 .. [len(sequence) - min_length],
    at which [kmer] occurs in [sequence]. *)
Definition spec_occurrences (sequence : dna) (min_length : nat) (kmer : dna) : list nat :=
  filter (fun i => slice sequence i (i + min_length) = kmer)
         (seq 0 (length sequence + 1 - min_length)).

(** The groups the list comprehension keeps, in the order of
    [kmers_locations.values()]. *)
Definition non_unique_groups (self : AvoidNonuniqueSegments.t) (sequence : dna)
    : list (list (Z * Z)) :=
  filter non_unique
    (map_to_list (AvoidNonuniqueSegments.kmers_locations self sequence)).*2.

(** The location built from [min(positions_list, key=...)] when nothing
    raises. *)
Definition first_location (positions_list : list (Z * Z)) : Location :=
  match positions_list with
  | [] => mkLocation 0 0 None
  | p :: rest =>
      let m := AvoidNonuniqueSegments.min_from p rest in
      mkLocation m.1 m.2 None
  end.

(** The location [EnforceGCContent.evaluate] works on: its own, or the
    whole sequence when it has none. *)
Definition evaluated_location (self : EnforceGCContent.t)
    (problem : DnaOptimizationProblem) : Location :=
  match EnforceGCContent.location self with
  | Some l => l
  | None => mkLocation 0 (Z.of_nat (length (sequence problem))) None
  end.

(** The GC fractions [EnforceGCContent.evaluate] looks at: one per window,
    or the single fraction of the region when there is no window. *)
Definition evaluated_gc (self : EnforceGCContent.t)
    (problem : DnaOptimizationProblem) : list Q :=
  gc_content (extract_sequence (evaluated_location self problem) (sequence problem))
             (EnforceGCContent.window self).

(** Every GC fraction [EnforceGCContent.evaluate] looks at has a denominator
    other than zero: a fraction is a count divided by the window size, or
    by the length of the region when there is no window.  With a window of
    0, or with an empty region and no window, the division is by zero and
    the fractions are not numbers. *)
Definition fractions_defined (self : EnforceGCContent.t)
    (problem : DnaOptimizationProblem) : Prop :=
  match EnforceGCContent.window self with
  | Some w => (1 <= w)%nat
  | None =>
      (1 <= length (extract_sequence (evaluated_location self problem)
                      (sequence problem)))%nat
  end.

(** Every location a specification is bound to satisfies the invariant of
    [Location]. *)
Definition bound_valid (location : option Location) : Prop :=
  forall own, location = Some own -> valid_location own.

(** The number of breach starts, after [previous], that lie further than
    [window] positions past the end [previous + window] of the run built
    so far. *)
Fixpoint run_breaks (window previous : Z) (breaches_starts : list Z) : nat :=
  match breaches_starts with
  | [] => 0
  | i :: rest =>
      Nat.add (if decide (i <= (previous + window) + window) then 0%nat else 1%nat)
              (run_breaks window i rest)
  end.

(** The loop over [breaches_starts[1:]] read run by run: the run in
    progress [(current_start, last_end)] is closed when the next start lies
    further than [window] past its end, and is the last location
    otherwise. *)
Fixpoint merged_runs (wstart window current_start last_end : Z)
    (breaches_starts : list Z) : list (Z * Z) :=
  match breaches_starts with
  | [] => [(wstart + current_start, wstart + last_end)]
  | i :: rest =>
      if decide (i > last_end + window) then
        (wstart + current_start, wstart + last_end)
          :: merged_runs wstart window i (i + window) rest
      else merged_runs wstart window current_start (i + window) rest
  end.

(** The breaching window starts [EnforceGCContent.evaluate] computes. *)
Definition evaluated_breaches_starts (self : EnforceGCContent.t)
    (problem : DnaOptimizationProblem) : list Z :=
  nonzero (Qpositive <$> (EnforceGCContent.breach self <$> evaluated_gc self problem)).

(** Two locations share a position of the sequence. *)
Definition overlapping (l1 l2 : Location) : Prop :=
  exists p, covers l1 p /\ covers l2 p.

(** * Properties *)

(** ** The [result] monad and [Location] *)

(** Goals about positions of concrete or symbolic intervals. *)
Ltac intervals :=
  unfold overlapping, covers, valid_location in *; cbn in *; lia.

Lemma Location_new_valid s e st :
  s <= e -> Location_new s e st = Ok (mkLocation s e st).
Proof. intros Hse. unfold Location_new. case_decide; [lia | done]. Qed.

Lemma comprehension_total {X Y} (f : X -> result Y) (g : X -> Y) (l : list X) :
  Forall (fun x => f x = Ok (g x)) l -> comprehension f l = Ok (g <$> l).
Proof.
  induction 1 as [|x l Hx _ IH]; [done|].
  cbn. rewrite Hx. cbn. rewrite IH. done.
Qed.

Lemma overlap_region_None self other :
  overlap_region self other = None <-> ~ overlapping self other.
Proof.
  unfold overlap_region, overlapping, covers. case_decide as Hlt; split.
  - done.
  - intros Hno. exfalso. apply Hno.
    exists (Z.max (start self) (start other)). lia.
  - intros _ (p & ? & ?). lia.
  - done.
Qed.

Lemma overlap_region_Some self other l :
  overlap_region self other = Some l ->
  overlapping self other /\
  l = mkLocation (Z.max (start self) (start other))
                 (Z.min (end_ self) (end_ other)) (strand self).
Proof.
  unfold overlap_region, overlapping, covers. intros Hov.
  case_decide as Hlt; [|done]. split; [|congruence].
  exists (Z.max (start self) (start other)). lia.
Qed.

Global Instance Location_le_total : Total Location_le.
Proof. intros l1 l2. unfold Location_le. lia. Qed.

Global Instance Location_le_trans : Transitive Location_le.
Proof. intros l1 l2 l3. unfold Location_le. lia. Qed.

(** ** The dictionary of k-mer occurrences *)

Section occurrences.
Import AvoidNonuniqueSegments.
Context (key : nat -> dna) (pos : nat -> Z * Z).

(** What a loop of [append] calls leaves under each k-mer. *)
Lemma foldl_append_position_lookup (l : list nat) (m : gmap dna (list (Z * Z))) kmer :
  foldl (fun m i => append_position m (key i) (pos i)) m l !!! kmer
  = (m !!! kmer) ++ (pos <$> filter (fun i => key i = kmer) l).
Proof.
  revert m. induction l as [|i l IH]; intros m.
  - cbn. by rewrite app_nil_r.
  - rewrite filter_cons. cbn [foldl]. rewrite IH. unfold append_position.
    destruct (decide (key i = kmer)) as [->|Hne].
    + rewrite lookup_total_insert_eq. by rewrite <- app_assoc.
    + by rewrite lookup_total_insert_ne.
Qed.

(** A property of every recorded position survives the loop. *)
Lemma foldl_append_position_Forall (P : Z * Z -> Prop) (l : list nat)
    (m : gmap dna (list (Z * Z))) :
  (forall i, P (pos i)) ->
  map_Forall (fun _ ps => Forall P ps /\ ps <> []) m ->
  map_Forall (fun _ ps => Forall P ps /\ ps <> [])
    (foldl (fun m i => append_position m (key i) (pos i)) m l).
Proof.
  intros Hpos. revert m. induction l as [|i l IH]; intros m Hm; cbn; [done|].
  apply IH. unfold append_position. apply map_Forall_insert_2; [|done].
  split; [|by destruct (m !!! key i)].
  apply Forall_app. split; [|by repeat constructor].
  rewrite lookup_total_alt. destruct (m !! key i) as [ps|] eqn:Hk; cbn; [|done].
  by apply (Hm _ _ Hk).
Qed.
End occurrences.

Lemma kmers_locations_lookup self (sequence : dna) kmer :
  let k := AvoidNonuniqueSegments.min_length self in
  let n := length sequence in
  let starts := seq 0 (n - k) in
  AvoidNonuniqueSegments.kmers_locations self sequence !!! kmer
  = ((fun i : nat => (Z.of_nat i, Z.of_nat (i + k)))
       <$> filter (fun i => slice sequence i (i + k) = kmer) starts)
    ++ (if AvoidNonuniqueSegments.include_reverse_complement self then
          (fun i : nat => (Z.of_nat n - Z.of_nat (i + k), Z.of_nat n - Z.of_nat i))
            <$> filter (fun i => slice (reverse_complement sequence) i (i + k) = kmer)
                       starts
        else []).
Proof.
  intros k n starts. unfold AvoidNonuniqueSegments.kmers_locations.
  fold k. fold n. fold starts.
  destruct (AvoidNonuniqueSegments.include_reverse_complement self).
  - unfold AvoidNonuniqueSegments.record_reverse, AvoidNonuniqueSegments.record_forward.
    rewrite (foldl_append_position_lookup
               (fun i => slice (reverse_complement sequence) i (i + k))
               (fun i : nat => (Z.of_nat n - Z.of_nat (i + k), Z.of_nat n - Z.of_nat i))).
    rewrite (foldl_append_position_lookup
               (fun i => slice sequence i (i + k))
               (fun i : nat => (Z.of_nat i, Z.of_nat (i + k)))).
    by rewrite lookup_total_empty.
  - unfold AvoidNonuniqueSegments.record_forward.
    rewrite (foldl_append_position_lookup
               (fun i => slice sequence i (i + k))
               (fun i : nat => (Z.of_nat i, Z.of_nat (i + k)))).
    rewrite lookup_total_empty. by rewrite app_nil_r.
Qed.

Lemma kmers_locations_positions self (sequence : dna) :
  map_Forall (fun _ ps => Forall (fun p : Z * Z => p.1 <= p.2) ps /\ ps <> [])
    (AvoidNonuniqueSegments.kmers_locations self sequence).
Proof.
  unfold AvoidNonuniqueSegments.kmers_locations.
  set (k := AvoidNonuniqueSegments.min_length self).
  assert (map_Forall (fun _ ps => Forall (fun p : Z * Z => p.1 <= p.2) ps /\ ps <> [])
            (foldl (AvoidNonuniqueSegments.record_forward sequence k) ∅
                   (seq 0 (length sequence - k)))) as Hfwd.
  { apply (foldl_append_position_Forall
             (fun i => slice sequence i (i + k))
             (fun i : nat => (Z.of_nat i, Z.of_nat (i + k)))).
    - intros i. cbn. lia.
    - apply map_Forall_empty. }
  destruct (AvoidNonuniqueSegments.include_reverse_complement self); [|done].
  apply (foldl_append_position_Forall
           (fun i => slice (reverse_complement sequence) i (i + k))
           (fun i : nat => (Z.of_nat (length sequence) - Z.of_nat (i + k),
                            Z.of_nat (length sequence) - Z.of_nat i))).
  - intros i. cbn. lia.
  - done.
Qed.

(** ** The first occurrence of a group *)

Lemma min_from_spec best l :
  let m := AvoidNonuniqueSegments.min_from best l in
  m ∈ best :: l /\ forall q, q ∈ best :: l -> m.1 <= q.1.
Proof.
  revert best. induction l as [|p l IH]; intros best; cbn.
  - split; [set_solver|]. intros q Hq. apply list_elem_of_singleton in Hq. by subst.
  - destruct (IH (if decide (p.1 < best.1) then p else best)) as [Hin Hmin].
    split.
    + apply elem_of_cons in Hin as [->|Hin].
      * case_decide; [right; left | left].
      * by do 2 right.
    + intros q Hq.
      assert ((if decide (p.1 < best.1) then p else best).1 <= best.1 /\
              (if decide (p.1 < best.1) then p else best).1 <= p.1) as [Hb Hp]
        by (case_decide; lia).
      pose proof (Hmin _ (list_elem_of_here _ _)) as H0.
      apply elem_of_cons in Hq as [->|Hq]; [lia|].
      apply elem_of_cons in Hq as [->|Hq]; [lia|].
      apply Hmin. by right.
Qed.

Lemma first_location_is_first positions_list :
  positions_list <> [] ->
  is_first_occurrence positions_list (first_location positions_list).
Proof.
  destruct positions_list as [|p rest]; [done|]. intros _.
  destruct (min_from_spec p rest) as [Hin Hmin].
  exists (AvoidNonuniqueSegments.min_from p rest). by repeat split.
Qed.

Lemma first_location_built positions_list :
  Forall (fun p : Z * Z => p.1 <= p.2) positions_list ->
  positions_list <> [] ->
  (p ← AvoidNonuniqueSegments.min_by_start positions_list; Location_new p.1 p.2 None)
  = Ok (first_location positions_list).
Proof.
  destruct positions_list as [|p rest]; [done|]. intros Hvalid _. cbn.
  destruct (min_from_spec p rest) as [Hin _].
  apply Location_new_valid.
  rewrite Forall_forall in Hvalid. by apply Hvalid.
Qed.

(** ** AvoidNonuniqueSegments.evaluate *)

Lemma AvoidNonuniqueSegments_evaluate_bound self problem own :
  AvoidNonuniqueSegments.location self = Some own ->
  let groups := non_unique_groups self (extract_sequence own (sequence problem)) in
  let locs := merge_sort Location_le (first_location <$> groups) in
  AvoidNonuniqueSegments.evaluate self problem
  = Ok (if decide (locs = []) then
          mkSpecEvaluation self problem 0 []
            (Passed_no_nonunique_kmer (AvoidNonuniqueSegments.min_length self))
        else
          mkSpecEvaluation self problem (- Z.of_nat (length locs)) locs
            (Failed_first_occurences locs)).
Proof.
  intros Hown groups locs. unfold AvoidNonuniqueSegments.evaluate.
  rewrite Hown. cbn [attr_of mbind result_bind].
  rewrite (comprehension_total _ first_location).
  - cbn [mbind result_bind]. subst locs groups. unfold non_unique_groups, non_unique.
    repeat case_decide; done.
  - apply Forall_forall. intros ps Hps.
    apply list_elem_of_filter in Hps as [_ Hps].
    apply list_elem_of_fmap in Hps as ([kmer ps'] & -> & Hin).
    apply elem_of_map_to_list in Hin.
    destruct (kmers_locations_positions _ _ _ _ Hin) as [Hvalid Hne].
    by apply first_location_built.
Qed.

Lemma filter_fmap_comm {X Y} (f : X -> Y) (P : Y -> Prop)
    `{forall y, Decision (P y)} (l : list X) :
  filter P (f <$> l) = f <$> filter (fun x => P (f x)) l.
Proof.
  induction l as [|x l IH]; [done|].
  rewrite fmap_cons, !filter_cons. case_decide; [rewrite fmap_cons|]; by rewrite IH.
Qed.

Lemma non_unique_groups_length self (sequence : dna) :
  length (non_unique_groups self sequence)
  = size (filter (fun kv : dna * list (Z * Z) => non_unique kv.2)
            (AvoidNonuniqueSegments.kmers_locations self sequence)).
Proof.
  unfold non_unique_groups.
  set (m := AvoidNonuniqueSegments.kmers_locations self sequence).
  rewrite <- length_map_to_list.
  rewrite filter_fmap_comm, length_fmap.
  apply Permutation_length.
  apply NoDup_Permutation.
  - apply NoDup_filter, NoDup_map_to_list.
  - apply NoDup_map_to_list.
  - intros [kmer ps]. rewrite list_elem_of_filter, !elem_of_map_to_list.
    rewrite map_lookup_filter_Some. cbn. tauto.
Qed.

Lemma AvoidNonuniqueSegments_evaluate_locations self problem own :
  AvoidNonuniqueSegments.location self = Some own ->
  exists ev,
    AvoidNonuniqueSegments.evaluate self problem = Ok ev /\
    locations ev
    = merge_sort Location_le
        (first_location
           <$> non_unique_groups self (extract_sequence own (sequence problem))) /\
    score ev = - Z.of_nat (length (locations ev)).
Proof.
  intros Hown. rewrite (AvoidNonuniqueSegments_evaluate_bound _ _ _ Hown).
  case_decide as Hnil; eexists; (split; [reflexivity|]); cbn; [|done].
  by rewrite Hnil.
Qed.

(** X1: on a bound specification, [evaluate] returns a score equal to minus
    the number of distinct k-mers that have more than one occurrence
    recorded in the dictionary the two loops build; the breach list is
    sorted and holds, for each such k-mer, the location of a recorded
    occurrence of least start. *)
Theorem evaluate_counts_recorded_groups self problem own :
  AvoidNonuniqueSegments.location self = Some own ->
  let m := AvoidNonuniqueSegments.kmers_locations self
             (extract_sequence own (sequence problem)) in
  exists ev,
    AvoidNonuniqueSegments.evaluate self problem = Ok ev /\
    score ev
    = - Z.of_nat (size (filter (fun kv : dna * list (Z * Z) => non_unique kv.2) m)) /\
    (exists firsts,
        Forall2 is_first_occurrence (filter non_unique (map_to_list m).*2) firsts /\
        locations ev ≡ₚ firsts) /\
    (forall kmer positions_list,
        m !! kmer = Some positions_list -> non_unique positions_list ->
        exists l, l ∈ locations ev /\ is_first_occurrence positions_list l) /\
    Sorted Location_le (locations ev).
Proof.
  intros Hown m.
  destruct (AvoidNonuniqueSegments_evaluate_locations self problem own Hown)
    as (ev & Hev & Hlocs & Hscore).
  assert (locations ev
          ≡ₚ first_location <$> non_unique_groups self (extract_sequence own (sequence problem)))
    as Hperm by (rewrite Hlocs; apply merge_sort_Permutation).
  assert (forall ps, ps ∈ non_unique_groups self (extract_sequence own (sequence problem)) ->
                     is_first_occurrence ps (first_location ps)) as Hfirst.
  { intros ps Hps. apply first_location_is_first.
    apply list_elem_of_filter in Hps as [Hlen _].
    unfold non_unique in Hlen. destruct ps; cbn in Hlen; [lia | done]. }
  exists ev. split; [done|]. split; [|split; [|split]].
  - rewrite Hscore, Hperm, length_fmap, non_unique_groups_length. done.
  - eexists. split; [|exact Hperm].
    apply Forall2_fmap_r, Forall_Forall2_diag, Forall_forall. exact Hfirst.
  - intros kmer ps Hk Hnu. exists (first_location ps).
    assert (ps ∈ non_unique_groups self (extract_sequence own (sequence problem))) as Hps.
    { apply list_elem_of_filter. split; [done|].
      apply list_elem_of_fmap. exists (kmer, ps). split; [done|].
      by apply elem_of_map_to_list. }
    split; [|by apply Hfirst].
    rewrite Hperm. apply list_elem_of_fmap. by exists ps.
  - rewrite Hlocs. apply Sorted_merge_sort. apply _.
Qed.

Lemma evaluate_counts_recorded_groups_witness :
  let self := AvoidNonuniqueSegments.mk 3 (Some (mkLocation 0 8 None)) false in
  let problem := mkProblem ATGCATGC in
  AvoidNonuniqueSegments.location self = Some (mkLocation 0 8 None) /\
  exists ev,
    AvoidNonuniqueSegments.evaluate self problem = Ok ev /\
    score ev = -1.
Proof.
  intros self problem. split; [reflexivity|].
  destruct (evaluate_counts_recorded_groups self problem (mkLocation 0 8 None) eq_refl)
    as (ev & Hev & Hscore & _).
  exists ev. split; [exact Hev|]. rewrite Hscore. vm_compute. reflexivity.
Defined.

(** C1: on ["ATGCATGC"] with [min_length=4] and default options the loop
    scans the starts 0 to 3 only, so the second ["ATGC"], at [(4,8)], is
    never recorded and [evaluate] answers score 0 with no breach; in
    general no forward occurrence is recorded at the last start
    [len(region) - min_length]. *)
Theorem ATGCATGC_second_occurrence_not_scanned :
  let problem := mkProblem ATGCATGC in
  (self ← AvoidNonuniqueSegments.init 4 None false;
   '(self, _) ← AvoidNonuniqueSegments.initialize_on_problem self problem;
   ev ← AvoidNonuniqueSegments.evaluate self problem;
   Ok (score ev, locations ev)) = Ok (0, []) /\
  AvoidNonuniqueSegments.kmers_locations
    (AvoidNonuniqueSegments.mk 4 (Some (mkLocation 0 8 None)) false) ATGCATGC
    !! [A; T; G; C] = Some [(0, 4)] /\
  (forall self (sequence : dna) kmer p,
      AvoidNonuniqueSegments.include_reverse_complement self = false ->
      p ∈ AvoidNonuniqueSegments.kmers_locations self sequence !!! kmer ->
      p.1 < Z.of_nat (length sequence)
            - Z.of_nat (AvoidNonuniqueSegments.min_length self)).
Proof.
  intros problem. split; [by vm_compute|]. split; [by vm_compute|].
  intros self sequence kmer p Hrc Hp.
  rewrite kmers_locations_lookup, Hrc, app_nil_r in Hp.
  apply list_elem_of_fmap in Hp as (i & -> & Hi).
  apply list_elem_of_filter in Hi as [_ Hi].
  apply elem_of_seq in Hi. cbn. lia.
Qed.

(** C5: ["ATGC"] occurs at the starts 0 and 4 of ["ATGCATGC"], and
    ["AAAA"] at the starts 0 and 1 of ["AAAAA"], so each sequence has one
    4-mer group occurring more than once; [evaluate] with [min_length=4]
    nevertheless returns score 0 and an empty breach list on both, because
    the occurrence at the last start is never recorded. *)
Theorem repeated_kmer_at_last_start_not_counted :
  let bound n := AvoidNonuniqueSegments.mk 4 (Some (mkLocation 0 n None)) false in
  (spec_occurrences ATGCATGC 4 [A; T; G; C] = [0; 4]%nat /\
   exists ev,
     AvoidNonuniqueSegments.evaluate (bound 8) (mkProblem ATGCATGC) = Ok ev /\
     score ev = 0 /\ locations ev = []) /\
  (spec_occurrences (replicate 5 A) 4 (replicate 4 A) = [0; 1]%nat /\
   exists ev,
     AvoidNonuniqueSegments.evaluate (bound 5) (mkProblem (replicate 5 A)) = Ok ev /\
     score ev = 0 /\ locations ev = []).
Proof.
  intros bound. split; (split; [by vm_compute|]); eexists; (split; [by vm_compute|]); done.
Qed.

(** C6: on ["ATGC" + "GCAT"] with [min_length=4], [evaluate] with
    [include_reverse_complement=True] answers a strictly negative score and
    a non-empty breach list, and with [include_reverse_complement=False] it
    answers score 0. *)
Theorem ATGCGCAT_reverse_complement_repeat :
  let problem := mkProblem ATGCGCAT in
  let evaluated include_reverse_complement :=
    self ← AvoidNonuniqueSegments.init 4 None include_reverse_complement;
    '(self, _) ← AvoidNonuniqueSegments.initialize_on_problem self problem;
    AvoidNonuniqueSegments.evaluate self problem in
  (exists ev, evaluated true = Ok ev /\ score ev < 0 /\ locations ev <> []) /\
  (exists ev, evaluated false = Ok ev /\ score ev = 0).
Proof.
  intros problem evaluated. split.
  - eexists. split; [by vm_compute|]. cbn. split; [lia | done].
  - eexists. split; [by vm_compute|]. done.
Qed.

(** C7: on a bound [AvoidNonuniqueSegments], [localized(location)] returns
    a [VoidSpecification] exactly when [overlap_region] finds no overlap,
    that is when the query shares no position with the bound location, and
    the specification itself, unchanged, exactly when it shares one. *)
Theorem AvoidNonuniqueSegments_localized_void_iff_disjoint self own query :
  AvoidNonuniqueSegments.location self = Some own ->
  (AvoidNonuniqueSegments.localized self query = Ok (VoidSpecification self)
   <-> overlap_region own query = None) /\
  (AvoidNonuniqueSegments.localized self query = Ok (VoidSpecification self)
   <-> ~ overlapping own query) /\
  (AvoidNonuniqueSegments.localized self query = Ok (Spec self)
   <-> overlapping own query).
Proof.
  intros Hown. unfold AvoidNonuniqueSegments.localized.
  rewrite Hown. cbn [attr_of mbind result_bind].
  destruct (overlap_region own query) as [l|] eqn:Hov.
  - apply overlap_region_Some in Hov as [Hov _].
    split; [|split]; split; done.
  - apply overlap_region_None in Hov.
    split; [|split]; split; done.
Qed.

Lemma AvoidNonuniqueSegments_localized_void_iff_disjoint_witness :
  let self := AvoidNonuniqueSegments.mk 4 (Some (mkLocation 0 8 None)) false in
  AvoidNonuniqueSegments.location self = Some (mkLocation 0 8 None) /\
  AvoidNonuniqueSegments.localized self (mkLocation 6 12 None) = Ok (Spec self) /\
  AvoidNonuniqueSegments.localized self (mkLocation 8 12 None)
  = Ok (VoidSpecification self).
Proof.
  intros self. split; [reflexivity|].
  destruct (AvoidNonuniqueSegments_localized_void_iff_disjoint
              self (mkLocation 0 8 None) (mkLocation 6 12 None) eq_refl) as (_ & _ & Hspec).
  destruct (AvoidNonuniqueSegments_localized_void_iff_disjoint
              self (mkLocation 0 8 None) (mkLocation 8 12 None) eq_refl) as (_ & Hvoid & _).
  split.
  - apply Hspec. exists 6. intervals.
  - apply Hvoid. intros (p & Hp & Hq). intervals.
Defined.

(** ** Breach magnitudes *)

Lemma Qpositive_true (x : Q) : Qpositive x = true <-> (0 < x)%Q.
Proof.
  unfold Qpositive. rewrite negb_true_iff, <- not_true_iff_false, Qle_bool_iff. lra.
Qed.

Lemma Qpositive_false (x : Q) : Qpositive x = false <-> (x <= 0)%Q.
Proof.
  unfold Qpositive. rewrite negb_false_iff, Qle_bool_iff. done.
Qed.

Lemma breach_nonneg self gc : (0 <= EnforceGCContent.breach self gc)%Q.
Proof.
  unfold EnforceGCContent.breach.
  pose proof (Q.le_max_l 0 (EnforceGCContent.mini self - gc)).
  pose proof (Q.le_max_l 0 (gc - EnforceGCContent.maxi self)).
  lra.
Qed.

Lemma breach_zero_iff self gc :
  (EnforceGCContent.breach self gc == 0)%Q
  <-> (EnforceGCContent.mini self <= gc /\ gc <= EnforceGCContent.maxi self)%Q.
Proof.
  unfold EnforceGCContent.breach.
  destruct (Q.max_spec 0 (EnforceGCContent.mini self - gc)) as [[? H1]|[? H1]];
  destruct (Q.max_spec 0 (gc - EnforceGCContent.maxi self)) as [[? H2]|[? H2]];
  rewrite H1, H2; (split; [intros ?; split; lra | intros [? ?]; lra]).
Qed.

Lemma Qsum_nonneg (l : list Q) : Forall (Qle 0) l -> (0 <= Qsum l)%Q.
Proof.
  induction 1 as [|x l Hx _ IH].
  - unfold Qsum. cbn [foldr]. lra.
  - change (Qsum (x :: l)) with (x + Qsum l)%Q. lra.
Qed.

Lemma Qsum_zero_iff (l : list Q) :
  Forall (Qle 0) l -> (Qsum l == 0)%Q <-> Forall (fun x => (x == 0)%Q) l.
Proof.
  induction 1 as [|x l Hx Hl IH]; [by split|].
  pose proof (Qsum_nonneg l Hl) as Hs.
  change (Qsum (x :: l)) with (x + Qsum l)%Q. split.
  - intros Hz. constructor; [lra|]. apply IH. lra.
  - intros Hall. apply Forall_cons in Hall as [Hx0 Hall].
    apply IH in Hall. lra.
Qed.

Lemma breaches_nonneg self (gc : list Q) :
  Forall (Qle 0) (EnforceGCContent.breach self <$> gc).
Proof. apply Forall_fmap, Forall_forall. intros g _. apply breach_nonneg. Qed.

(** ** Indices of the breaching windows *)

Lemma nonzero_from_nil i mask :
  nonzero_from i mask = [] <-> Forall (fun b => b = false) mask.
Proof.
  revert i. induction mask as [|b mask IH]; intros i; cbn; [by split|].
  destruct b; cbn.
  - split; [done|]. intros Hall. by apply Forall_cons in Hall as [? _].
  - rewrite IH. split; [by constructor|]. intros Hall. by apply Forall_cons in Hall as [_ ?].
Qed.

Lemma nonzero_from_length i mask : (length (nonzero_from i mask) <= length mask)%nat.
Proof.
  revert i. induction mask as [|b mask IH]; intros i; cbn; [done|].
  specialize (IH (i + 1)). destruct b; cbn; lia.
Qed.

Lemma nonzero_from_ascending i mask :
  Forall (Z.le i) (nonzero_from i mask) /\ StronglySorted Z.le (nonzero_from i mask).
Proof.
  revert i. induction mask as [|b mask IH]; intros i; cbn; [by split; constructor|].
  destruct (IH (i + 1)) as [Hge Hsorted].
  assert (Forall (Z.le i) (nonzero_from (i + 1) mask)) as Hge'.
  { eapply Forall_impl; [exact Hge|]. cbn. intros; lia. }
  destruct b; cbn; [|done].
  split; constructor; done.
Qed.

(** ** The merging loop *)

Lemma merge_loop_valid wstart w rest :
  0 <= w ->
  forall acc cs le,
    Forall (fun p : Z * Z => p.1 <= p.2) acc ->
    cs <= le ->
    Forall (Z.le cs) rest ->
    StronglySorted Z.le rest ->
    let '(locs, cs', le') := foldl (EnforceGCContent.merge_step wstart w) (acc, cs, le) rest in
    Forall (fun p : Z * Z => p.1 <= p.2) locs /\ cs' <= le'.
Proof.
  intros Hw. induction rest as [|i rest IH]; intros acc cs le Hacc Hcs Hge Hsorted.
  - by cbn.
  - cbn [foldl]. apply Forall_cons in Hge as [Hi Hge].
    apply StronglySorted_inv in Hsorted as [Hsorted Hirest].
    unfold EnforceGCContent.merge_step at 2. case_decide.
    + apply IH; try done; [|lia].
      apply Forall_app. split; [done|]. repeat constructor. cbn. lia.
    + apply IH; try done. lia.
Qed.

Lemma breaches_locations_returns window wstart wend starts :
  wstart <= wend ->
  (window = None -> (length starts <= 1)%nat) ->
  StronglySorted Z.le starts ->
  exists pairs,
    EnforceGCContent.breaches_locations window wstart wend starts = Ok pairs /\
    Forall (fun p : Z * Z => p.1 <= p.2) pairs /\
    (pairs = [] <-> starts = []).
Proof.
  intros Hloc Hscalar Hsorted.
  destruct starts as [|first [|second rest]].
  - exists []. by repeat split.
  - destruct window as [w|]; (eexists; split; [reflexivity|]; split; [|by split]);
      repeat constructor; cbn; lia.
  - destruct window as [w|]; [|specialize (Hscalar eq_refl); cbn in Hscalar; lia].
    unfold EnforceGCContent.breaches_locations.
    apply StronglySorted_inv in Hsorted as [Hsorted Hfirst].
    pose proof (merge_loop_valid wstart (Z.of_nat w) (second :: rest) ltac:(lia)
                  [] first (first + Z.of_nat w) ltac:(constructor) ltac:(lia)
                  Hfirst Hsorted) as Hloop.
    destruct (foldl _ _ (second :: rest)) as [[locs cs] le].
    destruct Hloop as [Hlocs Hcs].
    eexists. split; [reflexivity|]. split.
    + apply Forall_app. split; [done|]. repeat constructor. cbn. lia.
    + split; [|done]. intros Hnil. by destruct locs.
Qed.

(** ** EnforceGCContent.evaluate *)

Lemma evaluated_location_valid self problem :
  bound_valid (EnforceGCContent.location self) ->
  valid_location (evaluated_location self problem).
Proof.
  intros Hvalid. unfold evaluated_location.
  destruct (EnforceGCContent.location self) as [own|]; [by apply Hvalid|].
  unfold valid_location. cbn. lia.
Qed.

Lemma EnforceGCContent_evaluate_returns self problem :
  bound_valid (EnforceGCContent.location self) ->
  let breaches := EnforceGCContent.breach self <$> evaluated_gc self problem in
  exists ev,
    EnforceGCContent.evaluate self problem = Ok ev /\
    score ev = (- Qsum breaches)%Q /\
    (locations ev = [] <-> Forall (fun b => Qpositive b = false) breaches).
Proof.
  intros Hvalid breaches.
  pose proof (evaluated_location_valid self problem Hvalid) as [_ Hloc].
  unfold EnforceGCContent.evaluate.
  assert (match EnforceGCContent.location self with
          | Some l => Ok l
          | None => Location_new 0 (Z.of_nat (length (sequence problem))) None
          end = Ok (evaluated_location self problem)) as ->.
  { unfold evaluated_location. destruct (EnforceGCContent.location self); [done|].
    apply Location_new_valid. lia. }
  cbn [mbind result_bind]. fold (evaluated_gc self problem). fold breaches.
  set (starts := nonzero (Qpositive <$> breaches)).
  assert (starts = [] <-> Forall (fun b => Qpositive b = false) breaches) as Hstarts.
  { unfold starts, nonzero. rewrite nonzero_from_nil, Forall_fmap. done. }
  destruct (breaches_locations_returns (EnforceGCContent.window self)
              (start (evaluated_location self problem))
              (end_ (evaluated_location self problem)) starts Hloc)
    as (pairs & -> & Hpairs & Hnil).
  - intros Hwin. unfold starts, nonzero.
    etrans; [apply nonzero_from_length|].
    unfold breaches, evaluated_gc. rewrite Hwin. by rewrite !length_fmap.
  - apply nonzero_from_ascending.
  - cbn [mbind result_bind]. case_decide as Hp.
    + eexists. split; [reflexivity|]. split; [done|]. cbn.
      rewrite <- Hstarts, <- Hnil. done.
    + rewrite (comprehension_total _ (fun p : Z * Z => mkLocation p.1 p.2 None)).
      * cbn [mbind result_bind]. eexists. split; [reflexivity|]. split; [done|]. cbn.
        rewrite <- Hstarts, <- Hnil. split; [|by intros ->].
        intros Hmap. by apply fmap_nil_inv in Hmap.
      * eapply Forall_impl; [exact Hpairs|]. cbn. intros p Hp'.
        by apply Location_new_valid.
Qed.

(** C3: [evaluate] returns a score equal to minus the sum, over the GC
    fractions it evaluates (one per window, or the single fraction of the
    region when [window] is [None]), of
    [max(0, mini - gc) + max(0, gc - maxi)]; the score is 0 exactly when
    every one of these fractions lies in [[mini, maxi]]. *)
Theorem EnforceGCContent_score_is_negated_breach_sum self problem :
  bound_valid (EnforceGCContent.location self) ->
  let mini := EnforceGCContent.mini self in
  let maxi := EnforceGCContent.maxi self in
  exists ev,
    EnforceGCContent.evaluate self problem = Ok ev /\
    score ev
    = (- Qsum ((fun gc => Qmax 0 (mini - gc) + Qmax 0 (gc - maxi))
                 <$> evaluated_gc self problem))%Q /\
    ((score ev == 0)%Q
     <-> Forall (fun gc => (mini <= gc /\ gc <= maxi)%Q) (evaluated_gc self problem)).
Proof.
  intros Hvalid mini maxi.
  destruct (EnforceGCContent_evaluate_returns self problem Hvalid)
    as (ev & Hev & Hscore & _).
  exists ev. split; [done|]. split; [done|].
  rewrite Hscore.
  pose proof (Qsum_zero_iff _ (breaches_nonneg self (evaluated_gc self problem))) as Hsum.
  rewrite Forall_fmap in Hsum.
  transitivity (Qsum (EnforceGCContent.breach self <$> evaluated_gc self problem) == 0)%Q.
  { split; intros; lra. }
  rewrite Hsum. apply Forall_proper; [|done].
  intros gc. apply breach_zero_iff.
Qed.

(** C10: the score returned by [EnforceGCContent.evaluate] and by
    [AvoidNonuniqueSegments.evaluate] is never strictly positive, and the
    breach list is empty if and only if the score is 0.  For
    [EnforceGCContent] this is stated where the GC fractions are defined
    ([fractions_defined]): a window of at least one nucleotide, or a region
    that is not empty when there is no window. *)
Theorem evaluate_score_sign_and_breaches :
  (forall self problem,
      bound_valid (EnforceGCContent.location self) ->
      fractions_defined self problem ->
      exists ev,
        EnforceGCContent.evaluate self problem = Ok ev /\
        ~ (0 < score ev)%Q /\
        (locations ev = [] <-> (score ev == 0)%Q)) /\
  (forall self problem own,
      AvoidNonuniqueSegments.location self = Some own ->
      exists ev,
        AvoidNonuniqueSegments.evaluate self problem = Ok ev /\
        ~ 0 < score ev /\
        (locations ev = [] <-> score ev = 0)).
Proof.
  split.
  - intros self problem Hvalid _.
    destruct (EnforceGCContent_evaluate_returns self problem Hvalid)
      as (ev & Hev & Hscore & Hlocs).
    pose proof (breaches_nonneg self (evaluated_gc self problem)) as Hnonneg.
    pose proof (Qsum_nonneg _ Hnonneg) as Hsum.
    exists ev. split; [done|]. rewrite Hscore. split; [lra|].
    rewrite Hlocs.
    transitivity (Qsum (EnforceGCContent.breach self <$> evaluated_gc self problem) == 0)%Q;
      [|split; intros; lra].
    rewrite (Qsum_zero_iff _ Hnonneg).
    rewrite Forall_forall in Hnonneg.
    split; intros Hall; apply Forall_forall; intros b Hb;
      rewrite Forall_forall in Hall; specialize (Hall b Hb); specialize (Hnonneg b Hb).
    + apply Qpositive_false in Hall. lra.
    + apply Qpositive_false. lra.
  - intros self problem own Hown.
    destruct (AvoidNonuniqueSegments_evaluate_locations self problem own Hown)
      as (ev & Hev & _ & Hscore).
    exists ev. split; [done|]. rewrite Hscore. split; [lia|].
    split; [by intros ->|]. intros Hlen. destruct (locations ev); [done|]. cbn in Hlen. lia.
Qed.

Lemma EnforceGCContent_score_is_negated_breach_sum_witness :
  let self := EnforceGCContent.mk None (2 # 5) (3 # 5) (Some 8%nat) None 1 in
  let problem := mkProblem flanked_gc in
  bound_valid (EnforceGCContent.location self) /\
  exists ev, EnforceGCContent.evaluate self problem = Ok ev /\ (score ev == - (3 # 1))%Q.
Proof.
  intros self problem.
  assert (bound_valid (EnforceGCContent.location self)) as Hvalid by (intros own; discriminate).
  split; [exact Hvalid|].
  destruct (EnforceGCContent_score_is_negated_breach_sum self problem Hvalid)
    as (ev & Hev & Hscore & _).
  exists ev. split; [exact Hev|]. rewrite Hscore. vm_compute. reflexivity.
Defined.

Lemma evaluate_score_sign_and_breaches_witness :
  let gc_spec := EnforceGCContent.mk None 0 (3 # 5) (Some 5%nat)
                   (Some (mkLocation 0 24 None)) 1 in
  let kmer_spec := AvoidNonuniqueSegments.mk 4 (Some (mkLocation 0 8 None)) true in
  (bound_valid (EnforceGCContent.location gc_spec) /\
   fractions_defined gc_spec (mkProblem two_breaches) /\
   exists ev, EnforceGCContent.evaluate gc_spec (mkProblem two_breaches) = Ok ev /\
              ~ (0 < score ev)%Q) /\
  (AvoidNonuniqueSegments.location kmer_spec = Some (mkLocation 0 8 None) /\
   exists ev, AvoidNonuniqueSegments.evaluate kmer_spec (mkProblem ATGCGCAT) = Ok ev /\
              ~ 0 < score ev).
Proof.
  intros gc_spec kmer_spec.
  assert (bound_valid (EnforceGCContent.location gc_spec)) as Hvalid.
  { intros own [= <-]. intervals. }
  assert (fractions_defined gc_spec (mkProblem two_breaches)) as Hdefined.
  { unfold fractions_defined. cbn. lia. }
  destruct evaluate_score_sign_and_breaches as [Hgc Hkmer].
  split.
  - split; [exact Hvalid|]. split; [exact Hdefined|].
    destruct (Hgc gc_spec (mkProblem two_breaches) Hvalid Hdefined)
      as (ev & Hev & Hneg & _).
    by exists ev.
  - split; [reflexivity|].
    destruct (Hkmer kmer_spec (mkProblem ATGCGCAT) (mkLocation 0 8 None) eq_refl)
      as (ev & Hev & Hneg & _).
    by exists ev.
Defined.

(** ** Merging of breaching windows *)

Lemma merge_loop_length wstart w rest :
  forall acc cs previous,
    let '(locs, _, _) :=
      foldl (EnforceGCContent.merge_step wstart w) (acc, cs, previous + w) rest in
    length locs = (length acc + run_breaks w previous rest)%nat.
Proof.
  induction rest as [|i rest IH]; intros acc cs previous.
  - cbn. lia.
  - cbn [foldl run_breaks]. unfold EnforceGCContent.merge_step at 2.
    repeat case_decide; try lia.
    + specialize (IH (acc ++ [(wstart + cs, wstart + (previous + w))]) i i).
      destruct (foldl _ _ rest) as [[locs ?] ?].
      rewrite IH, length_app. cbn. lia.
    + specialize (IH acc cs i).
      destruct (foldl _ _ rest) as [[locs ?] ?]. rewrite IH. lia.
Qed.

(** C4: with a window set, the loop lets the next breach start [i] join
    the current run exactly when [i <= last_end + window], and closes the
    run into a location otherwise; so two breaching windows give one
    location when the second starts no further than [window] past the end
    of the first and two locations otherwise, and the breaches reported for
    at least two starts number one more than the starts lying further than
    that.  Breaching windows at 10 and 12 with [window=5] come out as
    the single location [(10, 17)]. *)
Theorem breach_runs_merge_within_one_window :
  (forall wstart w acc current_start last_end i rest,
      foldl (EnforceGCContent.merge_step wstart w) (acc, current_start, last_end) (i :: rest)
      = foldl (EnforceGCContent.merge_step wstart w)
          (if decide (i <= last_end + w) then (acc, current_start, i + w)
           else (acc ++ [(wstart + current_start, wstart + last_end)], i, i + w))
          rest) /\
  (forall (w : nat) wstart wend a b,
      EnforceGCContent.breaches_locations (Some w) wstart wend [a; b]
      = Ok (if decide (b <= (a + Z.of_nat w) + Z.of_nat w)
            then [(wstart + a, wstart + (b + Z.of_nat w))]
            else [(wstart + a, wstart + (a + Z.of_nat w));
                  (wstart + b, wstart + (b + Z.of_nat w))])) /\
  (forall (w : nat) wstart wend first second rest,
      exists pairs,
        EnforceGCContent.breaches_locations (Some w) wstart wend (first :: second :: rest)
        = Ok pairs /\
        length pairs = S (run_breaks (Z.of_nat w) first (second :: rest))) /\
  (let self := EnforceGCContent.mk None 0 (3 # 5) (Some 5%nat) None 1 in
   let problem := mkProblem two_breaches in
   nonzero (Qpositive <$> (EnforceGCContent.breach self <$> evaluated_gc self problem))
   = [10; 12] /\
   exists ev,
     EnforceGCContent.evaluate self problem = Ok ev /\
     locations ev = [mkLocation 10 17 None]).
Proof.
  split; [|split; [|split]].
  - intros wstart w acc cs le i rest. cbn [foldl].
    unfold EnforceGCContent.merge_step at 2. by repeat case_decide; try lia.
  - intros w wstart wend a b. cbn.
    by repeat case_decide; try lia.
  - intros w wstart wend first second rest.
    unfold EnforceGCContent.breaches_locations.
    pose proof (merge_loop_length wstart (Z.of_nat w) (second :: rest) [] first first)
      as Hlen.
    destruct (foldl _ _ (second :: rest)) as [[locs cs] le].
    eexists. split; [reflexivity|]. rewrite length_app, Hlen. cbn. lia.
  - split; [by vm_compute|]. eexists. split; [by vm_compute|]. done.
Qed.

(** ** EnforceGCContent.localized *)

(** C2, as stated, fails: with own location [[0, 10)], [window=5] and the
    query [[12, 15)], the query expanded by [window - 1] is [[8, 19)] and
    meets the own location in [[8, 10)], yet [localized] returns a
    [VoidSpecification]. *)
Lemma localized_void_although_expanded_query_overlaps :
  let own := mkLocation 0 10 None in
  let self := EnforceGCContent.mk None (2 # 5) (3 # 5) (Some 5%nat) (Some own) 1 in
  let query := mkLocation 12 15 None in
  ~ (forall expanded,
        extended query (5 - 1) = Ok expanded ->
        (EnforceGCContent.localized self query = Ok (VoidSpecification self)
         <-> overlap_region own expanded = None)).
Proof.
  intros own self query Hclaim.
  destruct (Hclaim (mkLocation 8 19 None) eq_refl) as [Hvoid _].
  specialize (Hvoid eq_refl). vm_compute in Hvoid. discriminate.
Qed.

(** C2, amended: for an [EnforceGCContent] with a window of at least one
    nucleotide and bound to a location, [localized(location)] returns a
    [VoidSpecification] exactly when the query location itself, not
    expanded, shares no position with the own location; otherwise it
    returns a copy bound to the intersection of the own location with the
    query expanded by [window - 1] on both sides. *)
Theorem EnforceGCContent_localized_windowed self own (w : nat) query :
  EnforceGCContent.location self = Some own ->
  EnforceGCContent.window self = Some w ->
  (1 <= w)%nat ->
  valid_location own ->
  valid_location query ->
  let radius := Z.of_nat w - 1 in
  (EnforceGCContent.localized self query = Ok (VoidSpecification self)
   <-> overlap_region own query = None) /\
  (EnforceGCContent.localized self query = Ok (VoidSpecification self)
   <-> ~ overlapping own query) /\
  (overlapping own query ->
   exists expanded new_location,
     extended query radius = Ok expanded /\
     overlap_region own expanded = Some new_location /\
     EnforceGCContent.localized self query
     = Ok (Spec (EnforceGCContent.copy_with_changes self (Some new_location))) /\
     (forall p, covers new_location p
                <-> covers own p /\ start query - radius <= p < end_ query + radius)).
Proof.
  intros Hown Hwin Hw [Hown0 Hown1] [Hq0 Hq1] radius.
  unfold EnforceGCContent.localized. rewrite Hown, Hwin.
  assert (extended query radius
          = Ok (mkLocation (Z.max 0 (start query - radius)) (end_ query + radius)
                           (strand query))) as Hext.
  { unfold extended. apply Location_new_valid. lia. }
  destruct (overlap_region own query) as [l|] eqn:Hov.
  - apply overlap_region_Some in Hov as [Hov _].
    fold radius. rewrite Hext. cbn [mbind result_bind].
    split; [by split|]. split; [by split|]. intros _.
    set (expanded := mkLocation (Z.max 0 (start query - radius)) (end_ query + radius)
                       (strand query)).
    set (new_location := mkLocation (Z.max (start own) (start expanded))
                           (Z.min (end_ own) (end_ expanded)) (strand own)).
    assert (overlap_region own expanded = Some new_location) as Hnew.
    { destruct Hov as (p & Hp1 & Hp2). unfold covers in *.
      unfold overlap_region. case_decide as Hlt; [done|]. cbn in Hlt. lia. }
    exists expanded, new_location. rewrite Hnew.
    split; [done|]. split; [done|]. split; [done|].
    intros p. unfold covers. cbn. lia.
  - apply overlap_region_None in Hov. split; [by split|]. split; [by split|]. done.
Qed.

Lemma EnforceGCContent_localized_windowed_witness :
  let own := mkLocation 0 10 None in
  let self := EnforceGCContent.mk None (2 # 5) (3 # 5) (Some 5%nat) (Some own) 1 in
  (EnforceGCContent.location self = Some own /\
   EnforceGCContent.window self = Some 5%nat /\
   (1 <= 5)%nat /\
   valid_location own /\
   valid_location (mkLocation 12 15 None) /\
   valid_location (mkLocation 9 12 None)) /\
  EnforceGCContent.localized self (mkLocation 12 15 None) = Ok (VoidSpecification self) /\
  EnforceGCContent.localized self (mkLocation 9 12 None)
  = Ok (Spec (EnforceGCContent.copy_with_changes self (Some (mkLocation 5 10 None)))).
Proof.
  intros own self.
  assert (valid_location own) as Hown by intervals.
  assert (valid_location (mkLocation 12 15 None)) as Hfar by intervals.
  assert (valid_location (mkLocation 9 12 None)) as Hnear by intervals.
  assert (1 <= 5)%nat as Hw by lia.
  split; [by repeat split|].
  destruct (EnforceGCContent_localized_windowed self own 5 (mkLocation 12 15 None)
              eq_refl eq_refl Hw Hown Hfar) as (_ & Hvoid & _).
  destruct (EnforceGCContent_localized_windowed self own 5 (mkLocation 9 12 None)
              eq_refl eq_refl Hw Hown Hnear) as (_ & _ & Hcopy).
  split.
  - apply Hvoid. intros (p & Hp & Hq). intervals.
  - destruct Hcopy as (expanded & new_location & Hext & Hnew & Hloc & _).
    { exists 9. intervals. }
    rewrite Hloc. vm_compute in Hext. injection Hext as <-.
    vm_compute in Hnew. injection Hnew as <-. reflexivity.
Defined.

(** ** Binding to a problem *)

(** C8: [EnforceGCContent.initialize_on_problem] returns a specification
    (the object itself when it has a location, a copy bound to
    [Location(0, len(problem.sequence))] otherwise) and a second call on
    the result returns it unchanged.
    [AvoidNonuniqueSegments.initialize_on_problem] binds the object in
    place in the same way, and a second call leaves it as it is, but it has
    no [return] statement: the call evaluates to [None], not to a
    specification, as on [AvoidNonuniqueSegments(4)] and ["ATGCATGC"]. *)
Theorem initialize_on_problem_binds_full_sequence :
  AvoidNonuniqueSegments.initialize_on_problem
    (AvoidNonuniqueSegments.mk 4 None false) (mkProblem ATGCATGC)
  = Ok (AvoidNonuniqueSegments.mk 4 (Some (mkLocation 0 8 None)) false, None) /\
  (forall self problem role,
      exists bound,
        EnforceGCContent.initialize_on_problem self problem role = Ok bound /\
        (EnforceGCContent.location self = None ->
         bound = EnforceGCContent.copy_with_changes self
                   (Some (mkLocation 0 (Z.of_nat (length (sequence problem))) None))) /\
        (is_Some (EnforceGCContent.location self) -> bound = self) /\
        EnforceGCContent.initialize_on_problem bound problem role = Ok bound) /\
  (forall self problem,
      exists bound,
        AvoidNonuniqueSegments.initialize_on_problem self problem = Ok (bound, None) /\
        (AvoidNonuniqueSegments.location self = None ->
         bound = AvoidNonuniqueSegments.mk
                   (AvoidNonuniqueSegments.min_length self)
                   (Some (mkLocation 0 (Z.of_nat (length (sequence problem))) None))
                   (AvoidNonuniqueSegments.include_reverse_complement self)) /\
        (is_Some (AvoidNonuniqueSegments.location self) -> bound = self) /\
        AvoidNonuniqueSegments.initialize_on_problem bound problem = Ok (bound, None)).
Proof.
  split; [done|]. split.
  - intros self problem role. unfold EnforceGCContent.initialize_on_problem.
    destruct (EnforceGCContent.location self) as [own|] eqn:Hown.
    + exists self. rewrite Hown. repeat split; try done.
    + rewrite Location_new_valid by lia. cbn [mbind result_bind].
      eexists. split; [reflexivity|]. split; [done|]. split; [by intros [? ?]|]. done.
  - intros self problem. unfold AvoidNonuniqueSegments.initialize_on_problem.
    destruct (AvoidNonuniqueSegments.location self) as [own|] eqn:Hown.
    + exists self. rewrite Hown. repeat split; try done.
    + rewrite Location_new_valid by lia. cbn [mbind result_bind].
      eexists. split; [reflexivity|]. split; [done|]. split; [by intros [? ?]|]. done.
Qed.

(** ** Construction *)

(** C9, as stated, fails: the constructor call with [mini=0.8] and
    [maxi=0.2] raises nothing. *)
Lemma EnforceGCContent_init_accepts_mini_above_maxi :
  ~ exists e, EnforceGCContent.init (4 # 5) (1 # 5) None None None 1 = Raise e.
Proof. intros (e & Hraise). discriminate. Qed.

(** C9, amended: constructing an [EnforceGCContent] never fails, whatever
    the parameters: the constructor checks nothing and stores [mini] and
    [maxi] as given (both replaced by [target] when one is given), so a
    configuration with [mini > maxi] is accepted. *)
Theorem EnforceGCContent_init_stores_without_check mini maxi target window location boost :
  exists self,
    EnforceGCContent.init mini maxi target window location boost = Ok self /\
    (target = None ->
     EnforceGCContent.mini self = mini /\ EnforceGCContent.maxi self = maxi) /\
    (forall tg, target = Some tg ->
     EnforceGCContent.mini self = tg /\ EnforceGCContent.maxi self = tg) /\
    EnforceGCContent.target self = target /\
    EnforceGCContent.window self = window /\
    EnforceGCContent.location self = location /\
    EnforceGCContent.boost self = boost.
Proof.
  unfold EnforceGCContent.init. destruct target as [tg|].
  - eexists. split; [reflexivity|]. cbn. repeat split; try done; congruence.
  - eexists. split; [reflexivity|]. cbn. repeat split; done.
Qed.

(** * Further properties of AvoidNonuniqueSegments *)

(** ** Slices and reverse complements *)

Lemma complement_involutive n : complement (complement n) = n.
Proof. by destruct n. Qed.

Lemma reverse_complement_involutive (sequence : dna) :
  reverse_complement (reverse_complement sequence) = sequence.
Proof.
  unfold reverse_complement.
  rewrite fmap_reverse, reverse_involutive, <- list_fmap_compose.
  rewrite <- (list_fmap_id sequence) at 2. apply list_fmap_ext.
  intros _ n _. apply complement_involutive.
Qed.

Lemma length_reverse_complement (sequence : dna) :
  length (reverse_complement sequence) = length sequence.
Proof. unfold reverse_complement. by rewrite length_reverse, length_fmap. Qed.

Lemma slice_reverse {X} (l : list X) (j k : nat) :
  (j + k <= length l)%nat ->
  slice (reverse l) j (j + k)
  = reverse (slice l (length l - j - k) (length l - j)).
Proof.
  intros Hjk. unfold slice.
  replace (j + k - j)%nat with k by lia.
  replace (length l - j - (length l - j - k))%nat with k by lia.
  rewrite drop_reverse, take_reverse, length_take.
  replace ((length l - j) `min` length l - k)%nat with (length l - j - k)%nat by lia.
  f_equal. rewrite take_drop_commute.
  by replace (length l - j - k + k)%nat with (length l - j)%nat by lia.
Qed.

(** A k-mer of the reverse complement is the reverse complement of the
    k-mer at the mirrored place. *)
Lemma slice_reverse_complement (sequence : dna) (j k : nat) :
  (j + k <= length sequence)%nat ->
  slice (reverse_complement sequence) j (j + k)
  = reverse_complement
      (slice sequence (length sequence - j - k) (length sequence - j)).
Proof.
  intros Hjk. unfold reverse_complement.
  rewrite slice_reverse by (by rewrite length_fmap).
  rewrite length_fmap. unfold slice. by rewrite fmap_take, fmap_drop.
Qed.

(** ** When a group is non-unique *)

Lemma lookup_total_non_unique self (sequence : dna) kmer :
  non_unique (AvoidNonuniqueSegments.kmers_locations self sequence !!! kmer) ->
  AvoidNonuniqueSegments.kmers_locations self sequence !! kmer
  = Some (AvoidNonuniqueSegments.kmers_locations self sequence !!! kmer).
Proof.
  unfold non_unique. rewrite lookup_total_alt.
  destruct (_ !! kmer) as [ps|]; cbn; [done|lia].
Qed.

Lemma lookup_non_unique self (sequence : dna) kmer ps :
  AvoidNonuniqueSegments.kmers_locations self sequence !! kmer = Some ps ->
  AvoidNonuniqueSegments.kmers_locations self sequence !!! kmer = ps.
Proof. intros Hk. by rewrite lookup_total_alt, Hk. Qed.

Lemma evaluate_negative_iff self problem own :
  AvoidNonuniqueSegments.location self = Some own ->
  let m := AvoidNonuniqueSegments.kmers_locations self
             (extract_sequence own (sequence problem)) in
  exists ev,
    AvoidNonuniqueSegments.evaluate self problem = Ok ev /\
    (score ev < 0 <-> exists kmer, non_unique (m !!! kmer)) /\
    (locations ev <> [] <-> exists kmer, non_unique (m !!! kmer)).
Proof.
  intros Hown m.
  destruct (AvoidNonuniqueSegments_evaluate_locations self problem own Hown)
    as (ev & Hev & Hlocs & Hscore).
  exists ev. split; [done|].
  assert (locations ev <> [] <-> exists kmer, non_unique (m !!! kmer)) as Hiff.
  { rewrite Hlocs. split.
    - intros Hne.
      destruct (non_unique_groups self (extract_sequence own (sequence problem)))
        as [|ps groups] eqn:Hgroups.
      { by destruct Hne. }
      assert (ps ∈ non_unique_groups self (extract_sequence own (sequence problem)))
        as Hps by (rewrite Hgroups; left).
      apply list_elem_of_filter in Hps as [Hnu Hps].
      apply list_elem_of_fmap in Hps as ([kmer ps'] & -> & Hin).
      apply elem_of_map_to_list in Hin. exists kmer.
      unfold m. by rewrite (lookup_non_unique _ _ _ _ Hin).
    - intros [kmer Hnu] Hnil.
      pose proof (lookup_total_non_unique _ _ _ Hnu) as Hk.
      assert (m !!! kmer ∈ non_unique_groups self (extract_sequence own (sequence problem)))
        as Hin.
      { apply list_elem_of_filter. split; [done|].
        apply list_elem_of_fmap. exists (kmer, m !!! kmer). split; [done|].
        by apply elem_of_map_to_list. }
      apply (f_equal length) in Hnil.
      rewrite (Permutation_length (merge_sort_Permutation _ _)), length_fmap in Hnil.
      destruct (non_unique_groups _ _); [by apply elem_of_nil in Hin | done]. }
  split; [|done]. rewrite <- Hiff, Hscore.
  destruct (locations ev); cbn; split; (done || lia).
Qed.

Lemma filter_seq_twice (P : nat -> Prop) `{forall i, Decision (P i)} (n : nat) :
  (1 < length (filter P (seq 0 n)))%nat
  <-> exists i j, (i < j < n)%nat /\ P i /\ P j.
Proof.
  split.
  - intros Hlen.
    pose proof (NoDup_filter P _ (NoDup_seq 0 n)) as Hnodup.
    destruct (filter P (seq 0 n)) as [|a [|b rest]] eqn:Hf; cbn in Hlen; try lia.
    assert (a ∈ filter P (seq 0 n)) as Ha by (rewrite Hf; left).
    assert (b ∈ filter P (seq 0 n)) as Hb by (rewrite Hf; right; left).
    apply list_elem_of_filter in Ha as [HPa Ha], Hb as [HPb Hb].
    apply elem_of_seq in Ha, Hb.
    assert (a <> b) as Hab.
    { intros ->. apply NoDup_cons in Hnodup as [Hnot _]. apply Hnot. left. }
    destruct (decide (a < b)%nat); [exists a, b | exists b, a]; repeat split; (done || lia).
  - intros (i & j & Hij & HPi & HPj).
    assert (i ∈ filter P (seq 0 n)) as Hi
      by (apply list_elem_of_filter; split; [done | apply elem_of_seq; lia]).
    assert (j ∈ filter P (seq 0 n)) as Hj
      by (apply list_elem_of_filter; split; [done | apply elem_of_seq; lia]).
    destruct (filter P (seq 0 n)) as [|a [|b rest]]; cbn; try lia.
    + by apply elem_of_nil in Hi.
    + apply list_elem_of_singleton in Hi, Hj. lia.
Qed.

(** X3: without the reverse complement, a bound [evaluate] reports a breach
    (negative score, non-empty breach list) exactly when some k-mer stands
    at two different starts that the loop scans, that is at two starts
    below [len(region) - min_length]. *)
Theorem forward_repeat_detected_iff self problem own :
  AvoidNonuniqueSegments.location self = Some own ->
  AvoidNonuniqueSegments.include_reverse_complement self = false ->
  let region := extract_sequence own (sequence problem) in
  let k := AvoidNonuniqueSegments.min_length self in
  exists ev,
    AvoidNonuniqueSegments.evaluate self problem = Ok ev /\
    (score ev < 0
     <-> exists i j, (i < j < length region - k)%nat /\
                     slice region i (i + k) = slice region j (j + k)) /\
    (locations ev <> [] <-> score ev < 0).
Proof.
  intros Hown Hrc region k.
  destruct (evaluate_negative_iff self problem own Hown) as (ev & Hev & Hscore & Hlocs).
  exists ev. split; [done|]. split; [|by rewrite Hscore, Hlocs].
  rewrite Hscore. subst region k. split.
  - intros [kmer Hnu]. unfold non_unique in Hnu.
    rewrite kmers_locations_lookup, Hrc, app_nil_r, length_fmap in Hnu.
    apply filter_seq_twice in Hnu as (i & j & Hij & Hi & Hj).
    exists i, j. split; [done|]. by rewrite Hi, Hj.
  - intros (i & j & Hij & Heq).
    exists (slice (extract_sequence own (sequence problem)) i
                  (i + AvoidNonuniqueSegments.min_length self)).
    unfold non_unique.
    rewrite kmers_locations_lookup, Hrc, app_nil_r, length_fmap.
    apply filter_seq_twice. by exists i, j.
Qed.

Lemma forward_repeat_detected_iff_witness :
  let self := AvoidNonuniqueSegments.mk 3 (Some (mkLocation 0 8 None)) false in
  let problem := mkProblem ATGCATGC in
  (AvoidNonuniqueSegments.location self = Some (mkLocation 0 8 None) /\
   AvoidNonuniqueSegments.include_reverse_complement self = false) /\
  exists ev, AvoidNonuniqueSegments.evaluate self problem = Ok ev /\ score ev < 0.
Proof.
  intros self problem. split; [by split|].
  destruct (forward_repeat_detected_iff self problem (mkLocation 0 8 None) eq_refl eq_refl)
    as (ev & Hev & Hscore & _).
  exists ev. split; [exact Hev|]. apply Hscore.
  exists 0%nat, 4%nat. split; [vm_compute; lia | reflexivity].
Defined.

(** What every recorded position looks like. *)
Lemma recorded_position self (sequence : dna) kmer p :
  p ∈ AvoidNonuniqueSegments.kmers_locations self sequence !!! kmer ->
  let k := AvoidNonuniqueSegments.min_length self in
  let n := length sequence in
  exists i : nat,
    (i < n - k)%nat /\
    ((p = (Z.of_nat i, Z.of_nat (i + k)) /\ slice sequence i (i + k) = kmer) \/
     (AvoidNonuniqueSegments.include_reverse_complement self = true /\
      p = (Z.of_nat n - Z.of_nat (i + k), Z.of_nat n - Z.of_nat i) /\
      slice (reverse_complement sequence) i (i + k) = kmer)).
Proof.
  intros Hp k n. rewrite kmers_locations_lookup in Hp. fold k n in Hp.
  apply elem_of_app in Hp as [Hp|Hp].
  - apply list_elem_of_fmap in Hp as (i & -> & Hi).
    apply list_elem_of_filter in Hi as [Hkmer Hi]. apply elem_of_seq in Hi.
    exists i. split; [lia|]. by left.
  - destruct (AvoidNonuniqueSegments.include_reverse_complement self);
      [|by apply elem_of_nil in Hp].
    apply list_elem_of_fmap in Hp as (i & -> & Hi).
    apply list_elem_of_filter in Hi as [Hkmer Hi]. apply elem_of_seq in Hi.
    exists i. split; [lia|]. by right.
Qed.

(** X4: with the reverse complement included, a bound [evaluate] reports a
    breach as soon as a k-mer stands at a scanned start [i] and its reverse
    complement stands at a start [i'] with [1 <= i'] and
    [i' + min_length <= len(region)].  With [i' = i] this is a k-mer equal
    to its own reverse complement: a single occurrence of it is reported as
    non-unique. *)
Theorem reverse_complement_occurrence_detected self problem own kmer (i i' : nat) :
  AvoidNonuniqueSegments.location self = Some own ->
  AvoidNonuniqueSegments.include_reverse_complement self = true ->
  let region := extract_sequence own (sequence problem) in
  let k := AvoidNonuniqueSegments.min_length self in
  (i < length region - k)%nat ->
  slice region i (i + k) = kmer ->
  (1 <= i')%nat ->
  (i' + k <= length region)%nat ->
  slice region i' (i' + k) = reverse_complement kmer ->
  exists ev,
    AvoidNonuniqueSegments.evaluate self problem = Ok ev /\
    score ev < 0 /\ locations ev <> [].
Proof.
  intros Hown Hrc region k Hi Hkmer Hi'1 Hi'2 Hrev.
  destruct (evaluate_negative_iff self problem own Hown) as (ev & Hev & Hscore & Hlocs).
  exists ev. split; [done|].
  assert (exists kmer0,
             non_unique (AvoidNonuniqueSegments.kmers_locations self region !!! kmer0))
    as Hgroup.
  { exists kmer. unfold non_unique.
    rewrite kmers_locations_lookup, Hrc, length_app, !length_fmap. fold k.
    assert (i ∈ filter (fun i => slice region i (i + k) = kmer)
                       (seq 0 (length region - k))) as Hfwd.
    { apply list_elem_of_filter. split; [done|]. apply elem_of_seq. lia. }
    assert ((length region - i' - k)%nat
            ∈ filter (fun j => slice (reverse_complement region) j (j + k) = kmer)
                     (seq 0 (length region - k))) as Hbwd.
    { apply list_elem_of_filter. split; [|apply elem_of_seq; lia].
      rewrite slice_reverse_complement by lia.
      replace (length region - (length region - i' - k) - k)%nat with i' by lia.
      replace (length region - (length region - i' - k))%nat with (i' + k)%nat by lia.
      rewrite Hrev. apply reverse_complement_involutive. }
    destruct (filter _ (seq 0 (length region - k))) as [|? ?] eqn:E1 in Hfwd;
      [by apply elem_of_nil in Hfwd|].
    destruct (filter (fun j => slice (reverse_complement region) j (j + k) = kmer) _)
      as [|? ?] eqn:E2 in Hbwd; [by apply elem_of_nil in Hbwd|].
    rewrite E1, E2. cbn. lia. }
  split; [by apply Hscore | by apply Hlocs].
Qed.

Lemma reverse_complement_occurrence_detected_witness :
  let self := AvoidNonuniqueSegments.mk 4 (Some (mkLocation 0 8 None)) true in
  let problem := mkProblem [A; A; G; C; G; C; T; T] in
  let region := extract_sequence (mkLocation 0 8 None) (sequence problem) in
  (AvoidNonuniqueSegments.location self = Some (mkLocation 0 8 None) /\
   AvoidNonuniqueSegments.include_reverse_complement self = true /\
   (2 < length region - 4)%nat /\
   slice region 2 (2 + 4) = [G; C; G; C] /\
   (1 <= 2)%nat /\
   (2 + 4 <= length region)%nat /\
   slice region 2 (2 + 4) = reverse_complement [G; C; G; C]) /\
  exists ev, AvoidNonuniqueSegments.evaluate self problem = Ok ev /\ score ev < 0.
Proof.
  intros self problem region.
  assert (2 < length region - 4)%nat as H1 by (vm_compute; lia).
  assert (1 <= 2)%nat as H2 by lia.
  assert (2 + 4 <= length region)%nat as H3 by (vm_compute; lia).
  split; [by repeat split|].
  destruct (reverse_complement_occurrence_detected self problem (mkLocation 0 8 None)
              [G; C; G; C] 2 2 eq_refl eq_refl H1 eq_refl H2 H3 eq_refl)
    as (ev & Hev & Hscore & _).
  by exists ev.
Defined.

(** X6: when the region is no longer than [min_length], nothing is scanned
    and a bound [evaluate] passes with score 0 and no breach, whatever the
    sequence; this includes a region of exactly [min_length] nucleotides. *)
Theorem short_region_passes self problem own :
  AvoidNonuniqueSegments.location self = Some own ->
  (length (extract_sequence own (sequence problem))
   <= AvoidNonuniqueSegments.min_length self)%nat ->
  AvoidNonuniqueSegments.evaluate self problem
  = Ok (mkSpecEvaluation self problem 0 []
          (Passed_no_nonunique_kmer (AvoidNonuniqueSegments.min_length self))).
Proof.
  intros Hown Hshort.
  rewrite (AvoidNonuniqueSegments_evaluate_bound _ _ _ Hown).
  assert (non_unique_groups self (extract_sequence own (sequence problem)) = []) as ->.
  { unfold non_unique_groups, AvoidNonuniqueSegments.kmers_locations.
    replace (length (extract_sequence own (sequence problem))
             - AvoidNonuniqueSegments.min_length self)%nat with 0%nat by lia.
    cbn [seq foldl].
    destruct (AvoidNonuniqueSegments.include_reverse_complement self);
      by rewrite map_to_list_empty. }
  done.
Qed.

Lemma short_region_passes_witness :
  let self := AvoidNonuniqueSegments.mk 4 (Some (mkLocation 0 4 None)) true in
  let problem := mkProblem [G; C; G; C] in
  (AvoidNonuniqueSegments.location self = Some (mkLocation 0 4 None) /\
   (length (extract_sequence (mkLocation 0 4 None) (sequence problem)) <= 4)%nat) /\
  exists ev, AvoidNonuniqueSegments.evaluate self problem = Ok ev /\ score ev = 0.
Proof.
  intros self problem.
  assert (length (extract_sequence (mkLocation 0 4 None) (sequence problem)) <= 4)%nat
    as Hshort by (vm_compute; lia).
  split; [by split|].
  eexists. split;
    [apply (short_region_passes self problem (mkLocation 0 4 None) eq_refl Hshort)
    |reflexivity].
Defined.

(** ** Shape of the reported locations *)

Lemma reported_location_origin self problem own :
  AvoidNonuniqueSegments.location self = Some own ->
  let m := AvoidNonuniqueSegments.kmers_locations self
             (extract_sequence own (sequence problem)) in
  exists ev,
    AvoidNonuniqueSegments.evaluate self problem = Ok ev /\
    locations ev
    ≡ₚ (fun kv : dna * list (Z * Z) => first_location kv.2)
         <$> filter (fun kv : dna * list (Z * Z) => non_unique kv.2) (map_to_list m).
Proof.
  intros Hown m.
  destruct (AvoidNonuniqueSegments_evaluate_locations self problem own Hown)
    as (ev & Hev & Hlocs & _).
  exists ev. split; [done|].
  rewrite Hlocs, merge_sort_Permutation. unfold non_unique_groups.
  by rewrite filter_fmap_comm, <- list_fmap_compose.
Qed.

(** X5: every breach a bound [evaluate] reports is a window of exactly
    [min_length] nucleotides, without strand, given in the coordinates of
    the extracted region ([0 <= start], [end <= len(region)]) and not of the
    whole sequence; without the reverse complement no location is reported
    twice. *)
Theorem reported_locations_are_region_windows self problem own :
  AvoidNonuniqueSegments.location self = Some own ->
  let region := extract_sequence own (sequence problem) in
  let k := AvoidNonuniqueSegments.min_length self in
  exists ev,
    AvoidNonuniqueSegments.evaluate self problem = Ok ev /\
    Forall (fun l => strand l = None /\
                     end_ l - start l = Z.of_nat k /\
                     0 <= start l /\ end_ l <= Z.of_nat (length region))
           (locations ev) /\
    (AvoidNonuniqueSegments.include_reverse_complement self = false ->
     NoDup (locations ev)).
Proof.
  intros Hown region k.
  destruct (reported_location_origin self problem own Hown) as (ev & Hev & Hperm).
  exists ev. split; [done|].
  set (m := AvoidNonuniqueSegments.kmers_locations self region) in *.
  assert (forall kmer ps, (kmer, ps) ∈ map_to_list m -> non_unique ps ->
            exists p, p ∈ m !!! kmer /\ first_location ps = mkLocation p.1 p.2 None)
    as Horigin.
  { intros kmer ps Hin Hnu. apply elem_of_map_to_list in Hin.
    destruct (first_location_is_first ps) as (p & Hp & _ & Hl).
    { unfold non_unique in Hnu. destruct ps; cbn in Hnu; [lia|done]. }
    exists p. split; [|done]. unfold m. by rewrite (lookup_non_unique _ _ _ _ Hin). }
  split.
  - rewrite Hperm. apply Forall_fmap, Forall_forall. intros [kmer ps] Hin.
    apply list_elem_of_filter in Hin as [Hnu Hin].
    destruct (Horigin kmer ps Hin Hnu) as (p & Hp & Hl).
    cbn [compose snd]. rewrite Hl.
    destruct (recorded_position _ _ _ _ Hp) as (i & Hi & [[-> _]|(_ & -> & _)]);
      fold region k in Hi; cbn; repeat split; lia.
  - intros Hrc. rewrite Hperm. apply NoDup_fmap_2_strong.
    + intros [k1 ps1] [k2 ps2] H1 H2 Heq. cbn in Heq.
      apply list_elem_of_filter in H1 as [Hnu1 H1], H2 as [Hnu2 H2].
      destruct (Horigin k1 ps1 H1 Hnu1) as (p1 & Hp1 & Hl1).
      destruct (Horigin k2 ps2 H2 Hnu2) as (p2 & Hp2 & Hl2).
      rewrite Hl1, Hl2 in Heq.
      destruct (recorded_position _ _ _ _ Hp1) as (i1 & _ & [[-> Hk1]|(? & _)]);
        [|congruence].
      destruct (recorded_position _ _ _ _ Hp2) as (i2 & _ & [[-> Hk2]|(? & _)]);
        [|congruence].
      cbn in Heq. assert (i1 = i2) as -> by (injection Heq; lia).
      assert (k1 = k2) as -> by congruence.
      apply elem_of_map_to_list in H1, H2. congruence.
    + apply NoDup_filter, NoDup_map_to_list.
Qed.

Lemma reported_locations_are_region_windows_witness :
  let self := AvoidNonuniqueSegments.mk 3 (Some (mkLocation 4 12 None)) false in
  let problem := mkProblem ([C; C; C; C] ++ ATGCATGC) in
  AvoidNonuniqueSegments.location self = Some (mkLocation 4 12 None) /\
  exists ev,
    AvoidNonuniqueSegments.evaluate self problem = Ok ev /\
    locations ev = [mkLocation 0 3 None] /\
    NoDup (locations ev).
Proof.
  intros self problem. split; [reflexivity|].
  destruct (reported_locations_are_region_windows self problem (mkLocation 4 12 None)
              eq_refl) as (ev & Hev & _ & Hnodup).
  exists ev. split; [exact Hev|]. split; [|by apply Hnodup].
  vm_compute in Hev. by injection Hev as <-.
Defined.

(** ** Score and options *)

Lemma evaluate_score_size self problem own :
  AvoidNonuniqueSegments.location self = Some own ->
  exists ev,
    AvoidNonuniqueSegments.evaluate self problem = Ok ev /\
    score ev
    = - Z.of_nat (size (filter (fun kv : dna * list (Z * Z) => non_unique kv.2)
                          (AvoidNonuniqueSegments.kmers_locations self
                             (extract_sequence own (sequence problem))))).
Proof.
  intros Hown.
  destruct (AvoidNonuniqueSegments_evaluate_locations self problem own Hown)
    as (ev & Hev & Hlocs & Hscore).
  exists ev. split; [done|].
  rewrite Hscore, Hlocs, (Permutation_length (merge_sort_Permutation _ _)).
  by rewrite length_fmap, non_unique_groups_length.
Qed.

(** X7: including the reverse complement never raises the score: for the
    same [min_length], location and problem, the score with
    [include_reverse_complement=True] is at most the score without. *)
Theorem reverse_complement_never_raises_score min_length own problem :
  exists ev_forward ev_both,
    AvoidNonuniqueSegments.evaluate
      (AvoidNonuniqueSegments.mk min_length (Some own) false) problem = Ok ev_forward /\
    AvoidNonuniqueSegments.evaluate
      (AvoidNonuniqueSegments.mk min_length (Some own) true) problem = Ok ev_both /\
    score ev_both <= score ev_forward.
Proof.
  destruct (evaluate_score_size
              (AvoidNonuniqueSegments.mk min_length (Some own) false) problem own eq_refl)
    as (ev1 & Hev1 & Hscore1).
  destruct (evaluate_score_size
              (AvoidNonuniqueSegments.mk min_length (Some own) true) problem own eq_refl)
    as (ev2 & Hev2 & Hscore2).
  exists ev1, ev2. split; [done|]. split; [done|].
  rewrite Hscore1, Hscore2.
  set (region := extract_sequence own (sequence problem)).
  set (m1 := AvoidNonuniqueSegments.kmers_locations
               (AvoidNonuniqueSegments.mk min_length (Some own) false) region).
  set (m2 := AvoidNonuniqueSegments.kmers_locations
               (AvoidNonuniqueSegments.mk min_length (Some own) true) region).
  enough (size (filter (fun kv : dna * list (Z * Z) => non_unique kv.2) m1)
          <= size (filter (fun kv : dna * list (Z * Z) => non_unique kv.2) m2))%nat by lia.
  rewrite <- !(size_dom (D:=gset dna)). apply subseteq_size.
  intros kmer Hk. apply elem_of_dom in Hk as [ps Hps]. apply elem_of_dom.
  apply map_lookup_filter_Some in Hps as [Hps Hnu]. cbn in Hnu.
  exists (m2 !!! kmer). apply map_lookup_filter_Some.
  assert (non_unique (m2 !!! kmer)) as Hnu2.
  { unfold non_unique in *. apply lookup_non_unique in Hps.
    unfold m1 in Hps. rewrite kmers_locations_lookup in Hps. cbn in Hps.
    rewrite app_nil_r in Hps.
    unfold m2. rewrite kmers_locations_lookup. cbn.
    rewrite length_app. rewrite Hps. lia. }
  split; [by apply lookup_total_non_unique | done].
Qed.

(** X8: on an unbound [AvoidNonuniqueSegments], [evaluate] and [localized]
    raise [AttributeError]; once [initialize_on_problem] has bound the
    object, both return normally on every problem and query. *)
Theorem bound_specification_never_raises self problem query :
  (AvoidNonuniqueSegments.location self = None ->
   AvoidNonuniqueSegments.evaluate self problem = Raise AttributeError /\
   AvoidNonuniqueSegments.localized self query = Raise AttributeError) /\
  exists bound,
    AvoidNonuniqueSegments.initialize_on_problem self problem = Ok (bound, None) /\
    (forall problem', exists ev,
        AvoidNonuniqueSegments.evaluate bound problem' = Ok ev) /\
    (forall query', exists localized_,
        AvoidNonuniqueSegments.localized bound query' = Ok localized_).
Proof.
  split.
  - intros Hnone. unfold AvoidNonuniqueSegments.evaluate, AvoidNonuniqueSegments.localized.
    by rewrite Hnone.
  - assert (exists bound own,
               AvoidNonuniqueSegments.initialize_on_problem self problem = Ok (bound, None) /\
               AvoidNonuniqueSegments.location bound = Some own)
      as (bound & own & Hinit & Hown).
    { unfold AvoidNonuniqueSegments.initialize_on_problem.
      destruct (AvoidNonuniqueSegments.location self) as [own|] eqn:Hloc.
      - by exists self, own.
      - rewrite Location_new_valid by lia. by do 2 eexists. }
    exists bound. split; [done|]. split.
    + intros problem'.
      destruct (AvoidNonuniqueSegments_evaluate_locations bound problem' own Hown)
        as (ev & Hev & _).
      by exists ev.
    + intros query'. unfold AvoidNonuniqueSegments.localized. rewrite Hown. cbn.
      destruct (overlap_region own query'); by eexists.
Qed.

(** ** Textual form *)

Lemma append_char_inj (s1 s2 : string) (c : Ascii.ascii) :
  s1 +:+ String c "" = s2 +:+ String c "" -> s1 = s2.
Proof.
  revert s2. induction s1 as [|a s1 IH]; intros [|b s2] Heq; cbn in Heq.
  - done.
  - injection Heq as _ Heq. by destruct s2.
  - injection Heq as _ Heq. by destruct s1.
  - injection Heq as -> Heq. f_equal. by apply IH.
Qed.

(** X9: [__str__] and [__repr__] give the same text, which shows
    [min_length] in decimal and nothing else: two specifications have the
    same text exactly when they have the same [min_length], whatever their
    locations and reverse-complement options. *)
Theorem repr_shows_min_length_only self other :
  AvoidNonuniqueSegments.__str__ self = AvoidNonuniqueSegments.__repr__ self /\
  (AvoidNonuniqueSegments.__repr__ self = AvoidNonuniqueSegments.__repr__ other
   <-> AvoidNonuniqueSegments.min_length self = AvoidNonuniqueSegments.min_length other).
Proof.
  split; [done|]. unfold AvoidNonuniqueSegments.__repr__. split.
  - intros Heq. apply (inj (String.app _)) in Heq.
    apply append_char_inj in Heq. by apply (inj pretty) in Heq.
  - by intros ->.
Qed.

(** * Further properties of EnforceGCContent *)

(** ** The merging loop, run by run *)

Lemma foldl_merge_step_runs wstart w rest :
  forall acc cs le,
    let '(locs, cs', le') :=
      foldl (EnforceGCContent.merge_step wstart w) (acc, cs, le) rest in
    locs ++ [(wstart + cs', wstart + le')] = acc ++ merged_runs wstart w cs le rest.
Proof.
  induction rest as [|i rest IH]; intros acc cs le; [done|].
  cbn [foldl merged_runs]. unfold EnforceGCContent.merge_step at 2.
  case_decide.
  - specialize (IH (acc ++ [(wstart + cs, wstart + le)]) i (i + w)).
    destruct (foldl _ _ rest) as [[locs cs'] le'].
    by rewrite IH, <- app_assoc.
  - apply IH.
Qed.

Lemma breaches_locations_runs (w : nat) wstart wend first second rest :
  EnforceGCContent.breaches_locations (Some w) wstart wend (first :: second :: rest)
  = Ok (merged_runs wstart (Z.of_nat w) first (first + Z.of_nat w) (second :: rest)).
Proof.
  unfold EnforceGCContent.breaches_locations.
  pose proof (foldl_merge_step_runs wstart (Z.of_nat w) (second :: rest)
                [] first (first + Z.of_nat w)) as Hruns.
  destruct (foldl _ _ (second :: rest)) as [[locs cs] le]. by rewrite Hruns.
Qed.

(** The run in progress comes out first, and only grows. *)
Lemma merged_runs_head wstart w cs le rest :
  Forall (fun j => le <= j + w) rest ->
  StronglySorted Z.le rest ->
  exists e tail,
    merged_runs wstart w cs le rest = (wstart + cs, wstart + e) :: tail /\ le <= e.
Proof.
  revert cs le. induction rest as [|i rest IH]; intros cs le Hge Hsorted; cbn.
  - by exists le, [].
  - apply Forall_cons in Hge as [Hi Hge].
    apply StronglySorted_inv in Hsorted as [Hsorted Hirest].
    case_decide.
    + by eexists le, _.
    + destruct (IH cs (i + w)) as (e & tail & -> & He); [|done|].
      * eapply Forall_impl; [exact Hirest|]. cbn. intros; lia.
      * exists e, tail. split; [done|lia].
Qed.

Lemma merged_runs_cover wstart w cs le rest :
  Forall (Z.le cs) rest ->
  Forall (fun j => le <= j + w) rest ->
  StronglySorted Z.le rest ->
  Forall (fun s => exists p, p ∈ merged_runs wstart w cs le rest /\
                           p.1 <= wstart + s /\ wstart + s + w <= p.2) rest.
Proof.
  revert cs le. induction rest as [|i rest IH]; intros cs le Hcs Hge Hsorted;
    [constructor|].
  apply Forall_cons in Hcs as [Hcsi Hcs], Hge as [Hi Hge].
  apply StronglySorted_inv in Hsorted as [Hsorted Hirest].
  assert (Forall (fun j => i + w <= j + w) rest) as Hnext
    by (eapply Forall_impl; [exact Hirest|]; cbn; intros; lia).
  cbn [merged_runs]. case_decide.
  - constructor.
    + destruct (merged_runs_head wstart w i (i + w) rest Hnext Hsorted)
        as (e & tail & Hhead & He).
      exists (wstart + i, wstart + e). rewrite Hhead. cbn.
      split; [right; left | lia].
    + eapply Forall_impl; [apply (IH i (i + w)); done|].
      cbn. intros s (p & Hp & Hs). exists p. split; [by right | done].
  - constructor.
    + destruct (merged_runs_head wstart w cs (i + w) rest Hnext Hsorted)
        as (e & tail & Hhead & He).
      exists (wstart + cs, wstart + e). rewrite Hhead. cbn.
      split; [left | lia].
    + by apply (IH cs (i + w)).
Qed.

Lemma merged_runs_apart wstart w cs le rest :
  Forall (fun j => le <= j + w) rest ->
  StronglySorted Z.le rest ->
  Sorted (fun p q : Z * Z => p.2 + w < q.1) (merged_runs wstart w cs le rest).
Proof.
  revert cs le. induction rest as [|i rest IH]; intros cs le Hge Hsorted; cbn.
  - repeat constructor.
  - apply Forall_cons in Hge as [Hi Hge].
    apply StronglySorted_inv in Hsorted as [Hsorted Hirest].
    assert (Forall (fun j => i + w <= j + w) rest) as Hnext
      by (eapply Forall_impl; [exact Hirest|]; cbn; intros; lia).
    case_decide.
    + constructor; [by apply IH|].
      destruct (merged_runs_head wstart w i (i + w) rest Hnext Hsorted)
        as (e & tail & -> & _).
      constructor. cbn. lia.
    + by apply IH.
Qed.

Lemma EnforceGCContent_evaluate_pairs self problem :
  bound_valid (EnforceGCContent.location self) ->
  exists ev pairs,
    EnforceGCContent.evaluate self problem = Ok ev /\
    EnforceGCContent.breaches_locations (EnforceGCContent.window self)
      (start (evaluated_location self problem)) (end_ (evaluated_location self problem))
      (evaluated_breaches_starts self problem) = Ok pairs /\
    locations ev = (fun p : Z * Z => mkLocation p.1 p.2 None) <$> pairs.
Proof.
  intros Hvalid.
  pose proof (evaluated_location_valid self problem Hvalid) as [_ Hloc].
  unfold EnforceGCContent.evaluate.
  assert (match EnforceGCContent.location self with
          | Some l => Ok l
          | None => Location_new 0 (Z.of_nat (length (sequence problem))) None
          end = Ok (evaluated_location self problem)) as ->.
  { unfold evaluated_location. destruct (EnforceGCContent.location self); [done|].
    apply Location_new_valid. lia. }
  cbn [mbind result_bind]. fold (evaluated_gc self problem).
  fold (evaluated_breaches_starts self problem).
  destruct (breaches_locations_returns (EnforceGCContent.window self)
              (start (evaluated_location self problem))
              (end_ (evaluated_location self problem))
              (evaluated_breaches_starts self problem) Hloc)
    as (pairs & Hpairs & Hvalidp & Hnil).
  - intros Hwin. unfold evaluated_breaches_starts, nonzero.
    etrans; [apply nonzero_from_length|].
    unfold evaluated_gc. rewrite Hwin. by rewrite !length_fmap.
  - apply nonzero_from_ascending.
  - rewrite Hpairs. cbn [mbind result_bind]. case_decide as Hp.
    + do 2 eexists. split; [reflexivity|]. split; [done|]. by rewrite Hp.
    + rewrite (comprehension_total _ (fun p : Z * Z => mkLocation p.1 p.2 None)).
      * cbn [mbind result_bind]. by do 2 eexists.
      * eapply Forall_impl; [exact Hvalidp|]. cbn. intros p Hp'.
        by apply Location_new_valid.
Qed.

(** ** Coordinates of a single breach *)

(** X2: when a window of at least one nucleotide is set and exactly one
    window breaches, at the start [s] of the extracted region, [evaluate]
    reports the single
    location [(s, s + window)]: these are coordinates of the region, the
    start [wstart] of the evaluated location is not added as it is in the
    branch for several breaches.  The reported location is that of the
    breaching window, [(wstart + s, wstart + s + window)], only when
    [wstart] is 0, and when [wstart] is [window] or more the two share no
    position. *)
Theorem single_breach_location_not_offset self problem (w : nat) (s : Z) :
  bound_valid (EnforceGCContent.location self) ->
  EnforceGCContent.window self = Some w ->
  (1 <= w)%nat ->
  evaluated_breaches_starts self problem = [s] ->
  let wstart := start (evaluated_location self problem) in
  let breaching := mkLocation (wstart + s) (wstart + s + Z.of_nat w) None in
  exists ev reported,
    EnforceGCContent.evaluate self problem = Ok ev /\
    locations ev = [reported] /\
    reported = mkLocation s (s + Z.of_nat w) None /\
    (reported = breaching <-> wstart = 0) /\
    (Z.of_nat w <= wstart -> ~ overlapping reported breaching).
Proof.
  intros Hvalid Hwin _ Hstarts wstart breaching.
  destruct (EnforceGCContent_evaluate_pairs self problem Hvalid)
    as (ev & pairs & Hev & Hpairs & Hlocs).
  rewrite Hwin, Hstarts in Hpairs. cbn in Hpairs.
  assert (pairs = [(s, s + Z.of_nat w)]) as -> by congruence.
  exists ev, (mkLocation s (s + Z.of_nat w) None).
  split; [done|]. split; [done|]. split; [done|]. split.
  - subst breaching. split; [intros [= H1 H2]; lia|].
    intros ->. f_equal; lia.
  - intros Hfar (p & Hp & Hp'). subst breaching. unfold covers in *. cbn in *. lia.
Qed.

Lemma single_breach_location_not_offset_witness :
  let self := EnforceGCContent.mk None 0 (9 # 10) (Some 8%nat)
                (Some (mkLocation 8 24 None)) 1 in
  let problem := mkProblem flanked_gc in
  (bound_valid (EnforceGCContent.location self) /\
   EnforceGCContent.window self = Some 8%nat /\
   (1 <= 8)%nat /\
   evaluated_breaches_starts self problem = [0]) /\
  exists ev,
    EnforceGCContent.evaluate self problem = Ok ev /\
    locations ev = [mkLocation 0 8 None] /\
    ~ overlapping (mkLocation 0 8 None) (mkLocation 8 16 None).
Proof.
  intros self problem.
  assert (bound_valid (EnforceGCContent.location self)) as Hvalid.
  { intros own [= <-]. intervals. }
  assert (evaluated_breaches_starts self problem = [0]) as Hstarts by (by vm_compute).
  assert (1 <= 8)%nat as Hw by lia.
  split; [exact (conj Hvalid (conj eq_refl (conj Hw Hstarts)))|].
  destruct (single_breach_location_not_offset self problem 8 0 Hvalid eq_refl Hw Hstarts)
    as (ev & reported & Hev & Hlocs & -> & _ & Hapart).
  exists ev. split; [exact Hev|]. split; [exact Hlocs|].
  apply Hapart. cbn. lia.
Defined.

(** X10: when a window is set and at least two windows breach, every
    breaching window lies inside one of the reported locations, and the
    reported locations come in increasing order with more than [window]
    positions between the end of one and the start of the next; so they
    never overlap and no breach is lost by merging. *)
Theorem merged_locations_cover_every_breach self problem (w : nat) :
  bound_valid (EnforceGCContent.location self) ->
  EnforceGCContent.window self = Some w ->
  let starts := evaluated_breaches_starts self problem in
  let wstart := start (evaluated_location self problem) in
  (2 <= length starts)%nat ->
  exists ev,
    EnforceGCContent.evaluate self problem = Ok ev /\
    (forall s, s ∈ starts ->
       exists l, l ∈ locations ev /\
                 start l <= wstart + s /\ wstart + s + Z.of_nat w <= end_ l) /\
    Sorted (fun l1 l2 => end_ l1 + Z.of_nat w < start l2) (locations ev).
Proof.
  intros Hvalid Hwin starts wstart Hlen.
  destruct (EnforceGCContent_evaluate_pairs self problem Hvalid)
    as (ev & pairs & Hev & Hpairs & Hlocs).
  exists ev. split; [done|].
  fold starts wstart in Hpairs. rewrite Hwin in Hpairs.
  destruct (nonzero_from_ascending 0
              (Qpositive <$> (EnforceGCContent.breach self <$> evaluated_gc self problem)))
    as [_ Hsorted].
  change (StronglySorted Z.le starts) in Hsorted.
  destruct starts as [|first [|second rest]]; cbn in Hlen; try lia.
  rewrite breaches_locations_runs in Hpairs.
  assert (pairs = merged_runs wstart (Z.of_nat w) first (first + Z.of_nat w)
                    (second :: rest)) as -> by congruence.
  clear Hpairs.
  apply StronglySorted_inv in Hsorted as [Hsorted Hfirst].
  assert (Forall (fun j => first + Z.of_nat w <= j + Z.of_nat w) (second :: rest))
    as Hnext by (eapply Forall_impl; [exact Hfirst|]; cbn; intros; lia).
  split.
  - intros s Hs.
    assert (exists p, p ∈ merged_runs wstart (Z.of_nat w) first (first + Z.of_nat w)
                            (second :: rest) /\
                      p.1 <= wstart + s /\ wstart + s + Z.of_nat w <= p.2)
      as (p & Hp & Hs1 & Hs2).
    { apply elem_of_cons in Hs as [->|Hs].
      - destruct (merged_runs_head wstart (Z.of_nat w) first (first + Z.of_nat w)
                    (second :: rest) Hnext Hsorted) as (e & tail & Hhead & He).
        exists (wstart + first, wstart + e). rewrite Hhead. cbn.
        split; [left | lia].
      - pose proof (merged_runs_cover wstart (Z.of_nat w) first (first + Z.of_nat w)
                      (second :: rest) Hfirst Hnext Hsorted) as Hcover.
        rewrite Forall_forall in Hcover. by apply Hcover. }
    exists (mkLocation p.1 p.2 None). rewrite Hlocs. split; [|done].
    apply list_elem_of_fmap. by exists p.
  - rewrite Hlocs. apply Sorted_fmap with (R1 := fun p q : Z * Z => p.2 + Z.of_nat w < q.1).
    + by intros p q.
    + by apply merged_runs_apart.
Qed.

Lemma merged_locations_cover_every_breach_witness :
  let self := EnforceGCContent.mk None 0 (3 # 5) (Some 5%nat) None 1 in
  let problem := mkProblem two_breaches in
  (bound_valid (EnforceGCContent.location self) /\
   EnforceGCContent.window self = Some 5%nat /\
   (2 <= length (evaluated_breaches_starts self problem))%nat) /\
  exists ev,
    EnforceGCContent.evaluate self problem = Ok ev /\
    Sorted (fun l1 l2 => end_ l1 + 5 < start l2) (locations ev).
Proof.
  intros self problem.
  assert (bound_valid (EnforceGCContent.location self)) as Hvalid
    by (intros own; discriminate).
  assert (2 <= length (evaluated_breaches_starts self problem))%nat as Hlen
    by (vm_compute; lia).
  split; [by repeat split|].
  destruct (merged_locations_cover_every_breach self problem 5 Hvalid eq_refl Hlen)
    as (ev & Hev & _ & Hsorted).
  by exists ev.
Defined.

(** ** Scores and bounds *)

Lemma Qsum_le (f g : Q -> Q) (l : list Q) :
  (forall x, (f x <= g x)%Q) -> (Qsum (f <$> l) <= Qsum (g <$> l))%Q.
Proof.
  intros Hfg. induction l as [|x l IH]; [cbn; lra|].
  change (Qsum (f <$> x :: l)) with (f x + Qsum (f <$> l))%Q.
  change (Qsum (g <$> x :: l)) with (g x + Qsum (g <$> l))%Q.
  specialize (Hfg x). lra.
Qed.

Lemma Qsum_eq (f g : Q -> Q) (l : list Q) :
  (forall x, (f x == g x)%Q) -> (Qsum (f <$> l) == Qsum (g <$> l))%Q.
Proof.
  intros Hfg. induction l as [|x l IH]; [cbn; lra|].
  change (Qsum (f <$> x :: l)) with (f x + Qsum (f <$> l))%Q.
  change (Qsum (g <$> x :: l)) with (g x + Qsum (g <$> l))%Q.
  specialize (Hfg x). lra.
Qed.

Lemma breach_antitone self other gc :
  (EnforceGCContent.mini other <= EnforceGCContent.mini self)%Q ->
  (EnforceGCContent.maxi self <= EnforceGCContent.maxi other)%Q ->
  (EnforceGCContent.breach other gc <= EnforceGCContent.breach self gc)%Q.
Proof.
  intros Hmini Hmaxi. unfold EnforceGCContent.breach.
  destruct (Q.max_spec 0 (EnforceGCContent.mini self - gc)) as [[G1 H1]|[G1 H1]];
  destruct (Q.max_spec 0 (gc - EnforceGCContent.maxi self)) as [[G2 H2]|[G2 H2]];
  destruct (Q.max_spec 0 (EnforceGCContent.mini other - gc)) as [[G3 H3]|[G3 H3]];
  destruct (Q.max_spec 0 (gc - EnforceGCContent.maxi other)) as [[G4 H4]|[G4 H4]];
  rewrite H1, H2, H3, H4; lra.
Qed.

(** X11: widening the allowed interval never lowers the score: if [other]
    has the window and location of [self], a [mini] no greater and a [maxi]
    no smaller, then on every problem its score is at least that of
    [self]. *)
Theorem widening_bounds_never_lowers_score self other problem :
  bound_valid (EnforceGCContent.location self) ->
  EnforceGCContent.window other = EnforceGCContent.window self ->
  EnforceGCContent.location other = EnforceGCContent.location self ->
  (EnforceGCContent.mini other <= EnforceGCContent.mini self)%Q ->
  (EnforceGCContent.maxi self <= EnforceGCContent.maxi other)%Q ->
  exists ev ev',
    EnforceGCContent.evaluate self problem = Ok ev /\
    EnforceGCContent.evaluate other problem = Ok ev' /\
    (score ev <= score ev')%Q.
Proof.
  intros Hvalid Hwin Hloc Hmini Hmaxi.
  destruct (EnforceGCContent_evaluate_returns self problem Hvalid)
    as (ev & Hev & Hscore & _).
  destruct (EnforceGCContent_evaluate_returns other problem) as (ev' & Hev' & Hscore' & _).
  { by rewrite Hloc. }
  exists ev, ev'. split; [done|]. split; [done|].
  rewrite Hscore, Hscore'.
  assert (evaluated_gc other problem = evaluated_gc self problem) as ->.
  { unfold evaluated_gc, evaluated_location. by rewrite Hwin, Hloc. }
  pose proof (Qsum_le (EnforceGCContent.breach other) (EnforceGCContent.breach self)
                (evaluated_gc self problem)
                (fun gc => breach_antitone self other gc Hmini Hmaxi)).
  lra.
Qed.

Lemma widening_bounds_never_lowers_score_witness :
  let self := EnforceGCContent.mk None (2 # 5) (3 # 5) (Some 8%nat) None 1 in
  let other := EnforceGCContent.mk None (1 # 5) (4 # 5) (Some 8%nat) None 1 in
  let problem := mkProblem flanked_gc in
  (bound_valid (EnforceGCContent.location self) /\
   EnforceGCContent.window other = EnforceGCContent.window self /\
   EnforceGCContent.location other = EnforceGCContent.location self /\
   (EnforceGCContent.mini other <= EnforceGCContent.mini self)%Q /\
   (EnforceGCContent.maxi self <= EnforceGCContent.maxi other)%Q) /\
  exists ev ev',
    EnforceGCContent.evaluate self problem = Ok ev /\
    EnforceGCContent.evaluate other problem = Ok ev' /\
    (score ev <= score ev')%Q.
Proof.
  intros self other problem.
  assert (bound_valid (EnforceGCContent.location self)) as Hvalid
    by (intros own; discriminate).
  assert (EnforceGCContent.mini other <= EnforceGCContent.mini self)%Q as Hmini
    by (cbn; lra).
  assert (EnforceGCContent.maxi self <= EnforceGCContent.maxi other)%Q as Hmaxi
    by (cbn; lra).
  split; [by repeat split|].
  apply (widening_bounds_never_lowers_score self other problem
           Hvalid eq_refl eq_refl Hmini Hmaxi).
Defined.

(** X12: a specification built with a [target] has [mini = maxi = target],
    and its score is minus the total absolute deviation of the evaluated GC
    fractions from the target. *)
Theorem target_score_is_total_deviation mini maxi tg window location boost problem :
  bound_valid location ->
  exists self ev,
    EnforceGCContent.init mini maxi (Some tg) window location boost = Ok self /\
    EnforceGCContent.evaluate self problem = Ok ev /\
    (score ev == - Qsum ((fun gc => Qabs (gc - tg)) <$> evaluated_gc self problem))%Q.
Proof.
  intros Hvalid. eexists. cbn [EnforceGCContent.init].
  set (self := EnforceGCContent.mk (Some tg) tg tg window location boost).
  destruct (EnforceGCContent_evaluate_returns self problem Hvalid)
    as (ev & Hev & Hscore & _).
  exists ev. split; [done|]. split; [done|]. rewrite Hscore.
  apply Qopp_comp. apply Qsum_eq. intros gc. unfold EnforceGCContent.breach.
  subst self. cbn [EnforceGCContent.mini EnforceGCContent.maxi].
  destruct (Q.max_spec 0 (tg - gc)) as [[G1 H1]|[G1 H1]];
  destruct (Q.max_spec 0 (gc - tg)) as [[G2 H2]|[G2 H2]];
  rewrite H1, H2;
  (destruct (Qlt_le_dec (gc - tg) 0) as [Hneg|Hpos];
   [pose proof (Qabs_neg (gc - tg) ltac:(lra)) | pose proof (Qabs_pos (gc - tg) Hpos)];
   lra).
Qed.

Lemma target_score_is_total_deviation_witness :
  bound_valid None /\
  exists self ev,
    EnforceGCContent.init 0 1 (Some (1 # 2)) (Some 8%nat) None 1 = Ok self /\
    EnforceGCContent.evaluate self (mkProblem flanked_gc) = Ok ev /\
    (score ev == - (9 # 2))%Q.
Proof.
  assert (bound_valid None) as Hvalid by (intros own; discriminate).
  split; [exact Hvalid|].
  destruct (target_score_is_total_deviation 0 1 (1 # 2) (Some 8%nat) None 1
              (mkProblem flanked_gc) Hvalid) as (self & ev & Hinit & Hev & Hscore).
  exists self, ev. split; [exact Hinit|]. split; [exact Hev|].
  rewrite Hscore. vm_compute in Hinit. injection Hinit as <-. by vm_compute.
Defined.

(** * Further properties of EnforceGCContent.localized *)

Lemma extended_valid query margin :
  valid_location query -> 0 <= margin ->
  extended query margin
  = Ok (mkLocation (Z.max 0 (start query - margin)) (end_ query + margin) (strand query)).
Proof. intros [? ?] ?. unfold extended. apply Location_new_valid. lia. Qed.

(** X13: [localized] changes nothing but the location: a returned
    [VoidSpecification] has the specification itself as parent, and a
    returned specification keeps [target], [mini], [maxi], [window] and
    [boost]; when the specification was bound, the new location, if any,
    lies inside the old one. *)
Theorem localized_only_narrows_location self query res :
  EnforceGCContent.localized self query = Ok res ->
  match res with
  | VoidSpecification parent => parent = self
  | Spec narrowed =>
      EnforceGCContent.target narrowed = EnforceGCContent.target self /\
      EnforceGCContent.mini narrowed = EnforceGCContent.mini self /\
      EnforceGCContent.maxi narrowed = EnforceGCContent.maxi self /\
      EnforceGCContent.window narrowed = EnforceGCContent.window self /\
      EnforceGCContent.boost narrowed = EnforceGCContent.boost self /\
      forall own new_location,
        EnforceGCContent.location self = Some own ->
        EnforceGCContent.location narrowed = Some new_location ->
        forall p, covers new_location p -> covers own p
  end.
Proof.
  unfold EnforceGCContent.localized.
  destruct (EnforceGCContent.location self) as [own|] eqn:Hown;
    destruct (EnforceGCContent.window self) as [w|] eqn:Hwin.
  - destruct (overlap_region own query) as [l|]; [|by intros [= <-]].
    destruct (extended query (Z.of_nat w - 1)) as [expanded|e]; [|done].
    cbn. intros [= <-]. cbn. do 5 (split; [done|]).
    intros own' nl Hown' Hnew p Hp. injection Hown' as <-.
    apply overlap_region_Some in Hnew as [_ ->]. unfold covers in *. cbn in *. lia.
  - intros [= <-]. do 5 (split; [done|]).
    intros own' nl Hown' Hnew p Hp. congruence.
  - destruct (extended query (Z.of_nat w + 1)) as [expanded|e]; [|done].
    cbn. intros [= <-]. cbn. repeat split; done.
  - intros [= <-]. cbn. repeat split; done.
Qed.

Lemma localized_only_narrows_location_witness :
  let self := EnforceGCContent.mk None (2 # 5) (3 # 5) (Some 5%nat)
                (Some (mkLocation 0 10 None)) 1 in
  let narrowed := EnforceGCContent.copy_with_changes self (Some (mkLocation 5 10 None)) in
  EnforceGCContent.localized self (mkLocation 9 12 None) = Ok (Spec narrowed) /\
  EnforceGCContent.window narrowed = EnforceGCContent.window self /\
  forall p, covers (mkLocation 5 10 None) p -> covers (mkLocation 0 10 None) p.
Proof.
  intros self narrowed.
  assert (EnforceGCContent.localized self (mkLocation 9 12 None) = Ok (Spec narrowed))
    as Hloc by reflexivity.
  split; [exact Hloc|].
  destruct (localized_only_narrows_location self (mkLocation 9 12 None) _ Hloc)
    as (_ & _ & _ & Hwin & _ & Hin).
  split; [exact Hwin|]. by apply Hin.
Defined.

(** X14: for a bound specification with a window of [w >= 1] nucleotides
    and a query that is not empty, the localized location holds every
    window of [w] nucleotides that lies in the own location and meets the
    query: no window a change in the query can affect is left out. *)
Theorem localized_keeps_every_affected_window self own (w : nat) query (i : Z) :
  EnforceGCContent.location self = Some own ->
  EnforceGCContent.window self = Some w ->
  (1 <= w)%nat ->
  valid_location own ->
  valid_location query ->
  start query < end_ query ->
  start own <= i -> i + Z.of_nat w <= end_ own ->
  i < end_ query -> start query < i + Z.of_nat w ->
  exists new_location,
    EnforceGCContent.localized self query
    = Ok (Spec (EnforceGCContent.copy_with_changes self (Some new_location))) /\
    start new_location <= i /\ i + Z.of_nat w <= end_ new_location.
Proof.
  intros Hown Hwin Hw [Hown0 Hown1] [Hq0 Hq1] Hq Hi1 Hi2 Hi3 Hi4.
  unfold EnforceGCContent.localized. rewrite Hown, Hwin.
  rewrite extended_valid by (done || lia).
  unfold overlap_region at 1. case_decide as Hov; [|lia].
  cbn [mbind result_bind]. unfold overlap_region. cbn [start end_ strand].
  case_decide as Hnew; [|lia].
  eexists. split; [reflexivity|]. cbn. lia.
Qed.

Lemma localized_keeps_every_affected_window_witness :
  let own := mkLocation 0 20 None in
  let self := EnforceGCContent.mk None (2 # 5) (3 # 5) (Some 5%nat) (Some own) 1 in
  let query := mkLocation 10 11 None in
  (EnforceGCContent.location self = Some own /\
   EnforceGCContent.window self = Some 5%nat /\
   (1 <= 5)%nat /\ valid_location own /\ valid_location query /\
   start query < end_ query /\
   start own <= 6 /\ 6 + 5 <= end_ own /\ 6 < end_ query /\ start query < 6 + 5) /\
  exists new_location,
    EnforceGCContent.localized self query
    = Ok (Spec (EnforceGCContent.copy_with_changes self (Some new_location))) /\
    start new_location <= 6 /\ 6 + 5 <= end_ new_location.
Proof.
  intros own self query.
  assert (valid_location own) as Hown by intervals.
  assert (valid_location query) as Hquery by intervals.
  assert (1 <= 5)%nat as Hw by lia.
  assert (start query < end_ query) as H0 by (cbn; lia).
  assert (start own <= 6) as H1 by (cbn; lia).
  assert (6 + 5 <= end_ own) as H2 by (cbn; lia).
  assert (6 < end_ query) as H3 by (cbn; lia).
  assert (start query < 6 + 5) as H4 by (cbn; lia).
  split; [by repeat split|].
  apply (localized_keeps_every_affected_window self own 5 query 6
           eq_refl eq_refl Hw Hown Hquery H0 H1 H2 H3 H4).
Defined.

(** * Binding, localizing again and evaluating without a window *)

(** X15: [EnforceGCContent.initialize_on_problem] always returns a
    specification that is bound, and calling it again on that specification
    returns it unchanged; binding does not change what [evaluate] computes:
    on a problem whose GC fractions are defined, the unbound specification
    and the returned one give the same score, the same breach locations
    and the same message, or raise the same exception. *)
Theorem initialize_on_problem_keeps_evaluation self problem role :
  exists bound,
    EnforceGCContent.initialize_on_problem self problem role = Ok bound /\
    is_Some (EnforceGCContent.location bound) /\
    (forall role', EnforceGCContent.initialize_on_problem bound problem role' = Ok bound) /\
    (fractions_defined self problem ->
    match EnforceGCContent.evaluate self problem,
          EnforceGCContent.evaluate bound problem with
    | Ok ev, Ok ev' =>
        score ev = score ev' /\ locations ev = locations ev' /\ message ev = message ev'
    | Raise e, Raise e' => e = e'
    | _, _ => False
    end).
Proof.
  unfold EnforceGCContent.initialize_on_problem.
  destruct (EnforceGCContent.location self) as [own|] eqn:Hown.
  - exists self. rewrite Hown. repeat split; [by eexists|].
    intros _. by destruct (EnforceGCContent.evaluate self problem).
  - rewrite Location_new_valid by lia. cbn [mbind result_bind].
    eexists. split; [reflexivity|]. split; [by eexists|]. split; [done|].
    intros _. unfold EnforceGCContent.evaluate. rewrite Hown.
    rewrite Location_new_valid by lia.
    cbn [mbind result_bind EnforceGCContent.location EnforceGCContent.window
         EnforceGCContent.copy_with_changes].
    change (EnforceGCContent.breach (EnforceGCContent.mk _ _ _ _ _ _))
      with (EnforceGCContent.breach self).
    destruct (EnforceGCContent.breaches_locations _ _ _ _) as [pairs|e]; [|done].
    cbn [mbind result_bind]. case_decide; [done|].
    destruct (comprehension _ pairs) as [locs|e]; done.
Qed.

Lemma initialize_on_problem_keeps_evaluation_witness :
  let self := EnforceGCContent.mk None 0 (3 # 5) (Some 5%nat) None 1 in
  let problem := mkProblem two_breaches in
  fractions_defined self problem /\
  exists bound ev ev',
    EnforceGCContent.initialize_on_problem self problem (Some constraint) = Ok bound /\
    EnforceGCContent.location bound = Some (mkLocation 0 24 None) /\
    EnforceGCContent.evaluate self problem = Ok ev /\
    EnforceGCContent.evaluate bound problem = Ok ev' /\
    locations ev = locations ev'.
Proof.
  intros self problem.
  assert (fractions_defined self problem) as Hdefined.
  { unfold fractions_defined. cbn. lia. }
  split; [exact Hdefined|].
  destruct (initialize_on_problem_keeps_evaluation self problem (Some constraint))
    as (bound & Hbound & _ & _ & Hsame).
  specialize (Hsame Hdefined).
  assert (EnforceGCContent.initialize_on_problem self problem (Some constraint)
          = Ok (EnforceGCContent.copy_with_changes self (Some (mkLocation 0 24 None))))
    as Hinit by reflexivity.
  rewrite Hinit in Hbound. injection Hbound as <-.
  set (bound := EnforceGCContent.copy_with_changes self (Some (mkLocation 0 24 None))) in *.
  destruct (EnforceGCContent.evaluate self problem) as [ev|e] eqn:Hev;
    [|by vm_compute in Hev].
  destruct (EnforceGCContent.evaluate bound problem) as [ev'|e'] eqn:Hev'; [|done].
  exists bound, ev, ev'. by destruct Hsame as (_ & Hlocs & _).
Defined.
